(** * thinkone-news-backend: the Telegram news facade of [app.py]

    A shallow embedding of the request handlers of [src/app.py]
    ([resolve_channel], [pick_title_and_url], [get_news] with its inner
    [fetch_one], [proxy_media]) and the properties of the written
    specification that can be settled on them.

    Modelling conventions.
    - A Python [str] is the list of its Unicode code points ([pystr]);
      indexing, slicing and comparison are per code point, as in Python.
    - The Telethon client is a record of functions ([Client]); its calls
      either return a value or raise, so they produce an [outcome].
    - [await] is sequencing: the handlers share nothing but the
      per-request [errors] dict, which is threaded explicitly.
    - Two builtins whose tables are not part of the repository are kept
      abstract: [str.lower] and [int(str)].
    - [NewsItem(...)] is pydantic's validating constructor: it raises
      [ValidationError] for a field of the wrong type.  The validation of
      an [HttpUrl] field is kept abstract ([HttpUrl]).
    - Assigning a header encodes its value as Latin-1 and raises
      [UnicodeEncodeError] where that is not possible. *)

From Stdlib Require Import String Ascii DecimalString DecimalZ.
From Stdlib Require Import List ZArith NArith Bool Lia Sorted Permutation.
Import ListNotations.

Local Open Scope Z_scope.

(** ** Python strings *)

Definition pystr := list N.

(** An ASCII literal of the source as a [pystr]. *)
Definition u (s : string) : pystr := map N_of_ascii (list_ascii_of_string s).

Definition str_eqb (a b : pystr) : bool :=
  if list_eq_dec N.eq_dec a b then true else false.

(** [bool(s)] for a string: non-empty. *)
Definition truthy (s : pystr) : bool :=
  match s with [] => false | _ :: _ => true end.

(** [str.isspace] for one code point: the characters [str.strip()]
    removes (Unicode white space, bidirectional classes WS, B, S). *)
Definition is_space (c : N) : bool :=
  (((9 <=? c) && (c <=? 13)) || ((28 <=? c) && (c <=? 32))
   || (c =? 133) || (c =? 160) || (c =? 5760)
   || ((8192 <=? c) && (c <=? 8202))
   || (c =? 8232) || (c =? 8233) || (c =? 8239) || (c =? 8287)
   || (c =? 12288))%N.

Fixpoint drop_while {A} (p : A -> bool) (l : list A) : list A :=
  match l with
  | [] => []
  | x :: l' => if p x then drop_while p l' else l
  end.

Definition lstrip (s : pystr) : pystr := drop_while is_space s.
Definition rstrip (s : pystr) : pystr := rev (drop_while is_space (rev s)).

(** [s.strip()] *)
Definition strip (s : pystr) : pystr := rstrip (lstrip s).

(** [s.startswith(p)] *)
Fixpoint starts_with (p s : pystr) : bool :=
  match p, s with
  | [], _ => true
  | _ :: _, [] => false
  | a :: p', b :: s' => (a =? b)%N && starts_with p' s'
  end.

(** [s.replace(old, new)] for a non-empty [old]: a left-to-right scan that
    replaces each occurrence found and resumes after it.  [skip] counts the
    characters of the occurrence just replaced that are still to be passed
    over. *)
Fixpoint replace_from (old new : pystr) (skip : nat) (s : pystr) : pystr :=
  match s with
  | [] => []
  | c :: s' =>
      match skip with
      | S k => replace_from old new k s'
      | O =>
          if starts_with old s
          then new ++ replace_from old new (pred (length old)) s'
          else c :: replace_from old new O s'
      end
  end.

Definition str_replace (old new s : pystr) : pystr := replace_from old new O s.

(** [s.split(sep)] for a one-character separator. *)
Fixpoint str_split (sep : N) (s : pystr) : list pystr :=
  match s with
  | [] => [[]]
  | c :: s' =>
      if (c =? sep)%N then [] :: str_split sep s'
      else match str_split sep s' with
           | [] => [[c]]
           | w :: ws => (c :: w) :: ws
           end
  end.

(** [s.split(sep, 1)] for a one-character separator: at most one cut. *)
Fixpoint str_split1 (sep : N) (s : pystr) : list pystr :=
  match s with
  | [] => [[]]
  | c :: s' =>
      if (c =? sep)%N then [[]; s']
      else match str_split1 sep s' with
           | [] => [[c]]
           | w :: ws => (c :: w) :: ws
           end
  end.

(** [sep.join(parts)] *)
Fixpoint str_join (sep : pystr) (parts : list pystr) : pystr :=
  match parts with
  | [] => []
  | [p] => p
  | p :: ps => p ++ sep ++ str_join sep ps
  end.

(** [str(n)] for an [int]: the decimal numeral, ["-"] first when negative. *)
Definition py_str (n : Z) : pystr := u (NilZero.string_of_int (Z.to_int n)).

(** Python's [l[:n]]: a negative [n] counts from the end. *)
Definition slice_upto {A} (l : list A) (n : Z) : list A :=
  if 0 <=? n then firstn (Z.to_nat n) l
  else firstn (Z.to_nat (Z.of_nat (length l) + n)) l.

Definition NEWLINE : N := 10.
Definition COMMA : N := 44.
Definition AT : N := 64.
Definition TME : pystr := u "https://t.me/".

(** ** Exceptions and results *)

(** What a library call (Telethon, a builtin) raises.  [OtherError] stands
    for any other [Exception] subclass (network, flood wait, authorisation,
    ...), with its class name and message. *)
Inductive lib_error : Type :=
| UsernameInvalidError (msg : pystr)
| UsernameNotOccupiedError (msg : pystr)
| ValueError (msg : pystr)
| OtherError (name msg : pystr).

(** What a handler raises: a library exception it let through, or the
    [HTTPException] it builds itself. *)
Inductive exn : Type :=
| LibError (e : lib_error)
| HTTPException (status_code : Z) (detail : pystr).

(** [str(ex)] *)
Definition error_str (ex : lib_error) : pystr :=
  match ex with
  | UsernameInvalidError m | UsernameNotOccupiedError m | ValueError m => m
  | OtherError _ m => m
  end.

(** [type(ex).__name__] *)
Definition error_name (ex : lib_error) : pystr :=
  match ex with
  | UsernameInvalidError _ => u "UsernameInvalidError"
  | UsernameNotOccupiedError _ => u "UsernameNotOccupiedError"
  | ValueError _ => u "ValueError"
  | OtherError n _ => n
  end.

Definition exn_str (ex : exn) : pystr :=
  match ex with
  | LibError e => error_str e
  | HTTPException c d => py_str c ++ u ": " ++ d
  end.

Definition exn_name (ex : exn) : pystr :=
  match ex with
  | LibError e => error_name e
  | HTTPException _ _ => u "HTTPException"
  end.

(** A call either returns or raises an exception of type [E]. *)
Inductive outcome (E A : Type) : Type :=
| Return (a : A)
| Raise (ex : E).
Arguments Return {E A} a.
Arguments Raise {E A} ex.

Definition bind {E A B} (c : outcome E A) (k : A -> outcome E B)
  : outcome E B :=
  match c with
  | Return a => k a
  | Raise ex => Raise ex
  end.

Notation "x <- c ;; k" := (bind c (fun x => k))
  (at level 61, c at next level, right associativity).

(** A library call made from a handler: what it raises goes through. *)
Definition call {A} (c : outcome lib_error A) : outcome exn A :=
  match c with
  | Return a => Return a
  | Raise e => Raise (LibError e)
  end.

(** The status FastAPI answers with: 200 when the handler returns, the
    status of an [HTTPException], 500 for any other exception. *)
Definition http_status {A} (r : outcome exn A) : Z :=
  match r with
  | Return _ => 200
  | Raise (HTTPException c _) => c
  | Raise (LibError _) => 500
  end.

(** ** Data model *)

(** An attribute an object may lack: [getattr(obj, name, default)] takes
    the default for [Missing] and the value, which may be Python's [None],
    for [Has]. *)
Inductive attr (A : Type) : Type :=
| Missing
| Has (v : A).
Arguments Missing {A}.
Arguments Has {A} v.

(** What the handlers read of a resolved Telethon entity.  A channel or
    chat has a [title]; a user has none but has a [first_name], which may
    be [None].  [username] is what [getattr(ent, "username", None)] gives:
    the handle, or [None] where there is no attribute or no handle. *)
Module Entity.
Record t : Type := mk {
    id : Z;
    title : attr (option pystr);
    first_name : attr (option pystr);
    username : option pystr
  }.
End Entity.

Module Document.
Record t : Type := mk {
    mime_type : option pystr;
    size : option Z
  }.
End Document.

Module WebPage.
Record t : Type := mk { url : option pystr }.
End WebPage.

Module MessageMedia.
Record t : Type := mk { webpage : option WebPage.t }.
End MessageMedia.

(** A Telethon [Message]: [photo], [video] and [document] are the values of
    its properties of those names ([None] when absent). *)
Module Message.
Record t : Type := mk {
    id : Z;
    message : option pystr;
    date : Z;
    media : option MessageMedia.t;
    photo : option unit;
    video : option Document.t;
    document : option Document.t
  }.
End Message.

(** An element of what [get_messages] yields: a [Message], or something
    else (a service message, an empty slot). *)
Inductive update : Type :=
| IsMessage (m : Message.t)
| NotMessage.

Inductive media_kind : Type := photo_kind | video_kind | document_kind.

Module NewsItem.
Record t : Type := mk {
    id : pystr;
    channel_id : Z;
    channel_username : option pystr;
    channel_title : pystr;
    title : pystr;
    text : pystr;
    source : pystr;
    sourceUrl : option pystr;
    url : option pystr;
    summary : option pystr;
    publishedAt : Z;
    tags : list pystr;
    media : option (media_kind * option pystr * option Z)
  }.
End NewsItem.

Module NewsList.
Record t : Type := mk {
    total : Z;
    items : list NewsItem.t;
    next_offset : option Z
  }.
End NewsList.

(** The argument of [get_entity]: a name or a numeric id. *)
Inductive peer : Type :=
| ByName (name : pystr)
| ById (n : Z).

(** The calls made on the global [tg_client]. *)
Record Client : Type := {
  get_entity : peer -> outcome lib_error Entity.t;
  (* get_messages(ent, limit=.., offset_id=..) *)
  get_messages : Entity.t -> Z -> Z -> outcome lib_error (list update);
  (* get_messages(ent, ids=..) *)
  get_message : Entity.t -> Z -> outcome lib_error (option Message.t);
  (* download_media(msg, file=buf): the bytes written to buf *)
  download_media : Message.t -> outcome lib_error (list Byte.byte)
}.

(** The per-request [errors] dict, in insertion order. *)
Definition dict := list (pystr * pystr).

(** [d[k] = v]: an existing key keeps its place. *)
Fixpoint dict_set (k v : pystr) (d : dict) : dict :=
  match d with
  | [] => [(k, v)]
  | (k', v') :: d' =>
      if str_eqb k' k then (k, v) :: d' else (k', v') :: dict_set k v d'
  end.

Definition dict_keys (d : dict) : list pystr := map fst d.

(** ** Sorting as [list.sort] does *)

(** [list.sort(key=.., reverse=..)]: stable, compares keys with [<] only;
    with [reverse] the list is reversed, sorted and reversed again, which
    keeps equal keys in their original order. *)
Section Sort.
Context {A K : Type} (key : A -> K) (lt : K -> K -> bool).

  (** Insert [x] behind every element that is not greater. *)
Fixpoint insert_sorted (x : A) (l : list A) : list A :=
  match l with
  | [] => [x]
  | y :: l' =>
      if lt (key x) (key y) then x :: l else y :: insert_sorted x l'
  end.

Definition sort_asc (l : list A) : list A :=
  fold_left (fun acc x => insert_sorted x acc) l [].

Definition list_sort (reverse : bool) (l : list A) : list A :=
  if reverse then rev (sort_asc (rev l)) else sort_asc l.

(** [x] may stand before [y] in ascending order: [y] is not smaller. *)
Definition not_after (x y : A) : Prop := lt (key y) (key x) = false.
(** [x] may stand before [y] in descending order: [y] is not greater. *)
Definition not_before (x y : A) : Prop := lt (key x) (key y) = false.
End Sort.

(** [a < b] on strings: lexicographic on code points. *)
Fixpoint str_compare (a b : pystr) : comparison :=
  match a, b with
  | [], [] => Eq
  | [], _ :: _ => Lt
  | _ :: _, [] => Gt
  | x :: a', y :: b' =>
      match N.compare x y with
      | Eq => str_compare a' b'
      | c => c
      end
  end.

Definition str_ltb (a b : pystr) : bool :=
  match str_compare a b with Lt => true | _ => false end.

(** [a < b] on the tuples [(str, datetime)]: the first components decide
    unless they are equal. *)
Definition tuple_ltb (a b : pystr * Z) : bool :=
  if str_eqb (fst a) (fst b) then snd a <? snd b else str_ltb (fst a) (fst b).

(** ** The handlers of [app.py] *)

Module App.
Section Handlers.

(** The global Telethon client. *)
Variable tg_client : Client.
(** The environment variable [TG_CHANNELS], [None] when unset. *)
Variable TG_CHANNELS : option pystr.
(** [str.lower] (the Unicode case tables are the interpreter's). *)
Variable str_lower : pystr -> pystr.
(** [int(s)] on a string: the integer, or the exception it raises. *)
Variable py_int : pystr -> outcome lib_error Z.
(** Validation of a string by pydantic's [HttpUrl]: the URL as the model
    then holds it (in its string form), or [None] where the string is
    rejected. *)
Variable HttpUrl : pystr -> option pystr.

(** [x or ""] for an optional string. *)
Definition or_empty (x : option pystr) : pystr :=
  match x with
  | Some s => s
  | None => []
  end.

(** [[c.strip() for c in parts if c.strip()]] *)
Definition stripped_nonempty (parts : list pystr) : list pystr :=
  map strip (filter (fun c => truthy (strip c)) parts).

Definition DEFAULT_CHANNELS : list pystr :=
  stripped_nonempty (str_split COMMA (or_empty TG_CHANNELS)).

(** The string [resolve_channel] looks up:
    [entity.strip().replace("https://t.me/", "").replace("@", "")]. *)
Definition normalize_identifier (entity : pystr) : pystr :=
  str_replace [AT] [] (str_replace TME [] (strip entity)).

(** [HTTPException(400, f"Cannot resolve channel '{entity}': {ex}")] *)
Definition cannot_resolve (entity : pystr) (ex : lib_error) : exn :=
  HTTPException 400
    (u "Cannot resolve channel '" ++ entity ++ u "': " ++ error_str ex).

Definition resolve_channel (entity : pystr) : outcome exn Entity.t :=
  let e := normalize_identifier entity in
  match get_entity tg_client (ByName e) with
  | Return ent => Return ent
  | Raise (UsernameInvalidError _) | Raise (UsernameNotOccupiedError _) =>
      match (n <- py_int e ;; get_entity tg_client (ById n)) with
      | Return ent => Return ent
      | Raise ex => Raise (cannot_resolve entity ex)
      end
  | Raise ex => Raise (cannot_resolve entity ex)
  end.

Definition pick_title_and_url (msg : Message.t)
  : pystr * pystr * option pystr :=
  let text := strip (or_empty (Message.message msg)) in
  let first_line := firstn 120 (nth 0 (str_split1 NEWLINE text) []) in
  let title := if truthy first_line then first_line else u "Post" in
  let url :=
    match Message.media msg with
    | Some md =>
        match MessageMedia.webpage md with
        | Some wp => WebPage.url wp
        | None => None
        end
    | None => None
    end in
  (title, text, url).

(** [getattr(ent, "title", getattr(ent, "first_name", "Channel"))]; the
    result is [None] where the attribute found holds Python's [None]. *)
Definition chan_title_of (ent : Entity.t) : option pystr :=
  match Entity.title ent with
  | Has t => t
  | Missing =>
      match Entity.first_name ent with
      | Has f => f
      | Missing => Some (u "Channel")
      end
  end.

(** pydantic's [ValidationError] (its text, which lists the fields at
    fault, is not reproduced; nothing in the handlers reads it). *)
Definition ValidationError : lib_error :=
  OtherError (u "ValidationError") (u "validation error for NewsItem").

(** An [Optional[HttpUrl]] field: [None] passes, a string is validated. *)
Definition validate_optional_url (x : option pystr)
  : outcome lib_error (option pystr) :=
  match x with
  | None => Return None
  | Some s =>
      match HttpUrl s with
      | Some v => Return (Some v)
      | None => Raise ValidationError
      end
  end.

(** A [str] field: Python's [None] does not pass. *)
Definition validate_str (x : option pystr) : outcome lib_error pystr :=
  match x with
  | Some s => Return s
  | None => Raise ValidationError
  end.

(** The call [NewsItem(id=.., channel_id=.., ...)] of lines 163-177, with
    the arguments in the order of the fields.  The arguments that can be
    of the wrong type are [channel_title] and [source] (a [str] is
    expected, [getattr] may have found [None]) and the two URLs. *)
Definition NewsItem_init (id : pystr) (channel_id : Z)
    (channel_username : option pystr) (channel_title : option pystr)
    (title text : pystr) (source : option pystr)
    (sourceUrl url : option pystr) (summary : option pystr)
    (publishedAt : Z) (tags : list pystr)
    (media : option (media_kind * option pystr * option Z))
  : outcome lib_error NewsItem.t :=
  channel_title <- validate_str channel_title ;;
  source <- validate_str source ;;
  sourceUrl <- validate_optional_url sourceUrl ;;
  url <- validate_optional_url url ;;
  Return {| NewsItem.id := id;
            NewsItem.channel_id := channel_id;
            NewsItem.channel_username := channel_username;
            NewsItem.channel_title := channel_title;
            NewsItem.title := title;
            NewsItem.text := text;
            NewsItem.source := source;
            NewsItem.sourceUrl := sourceUrl;
            NewsItem.url := url;
            NewsItem.summary := summary;
            NewsItem.publishedAt := publishedAt;
            NewsItem.tags := tags;
            NewsItem.media := media |}.

(** [f"https://t.me/{username}" if username else None] *)
Definition link_of (username : option pystr) : option pystr :=
  match username with
  | Some n => if truthy n then Some (TME ++ n) else None
  | None => None
  end.

(** One turn of the loop over [msgs] in [fetch_one]: the item appended to
    [out], [None] where the loop says [continue], or the exception the
    construction of the item raises. *)
Definition news_item_of (ent : Entity.t) (m : update)
  : outcome lib_error (option NewsItem.t) :=
  match m with
  | NotMessage => Return None
  | IsMessage m =>
      let '(title, text, url) := pick_title_and_url m in
      if negb (truthy text) then Return None
      else
        let chan_title := chan_title_of ent in
        let username := Entity.username ent in
        item <- NewsItem_init
                  (py_str (Message.id m))
                  (Entity.id ent)
                  username
                  chan_title
                  title
                  text
                  chan_title
                  (link_of username)
                  url
                  None
                  (Message.date m)
                  []
                  None ;;
        Return (Some item)
  end.

(** The loop [for m in msgs: ...; out.append(...)], from the list [out]
    built so far; an exception ends it. *)
Fixpoint collect_from (ent : Entity.t) (msgs : list update)
    (out : list NewsItem.t) : outcome lib_error (list NewsItem.t) :=
  match msgs with
  | [] => Return out
  | m :: rest =>
      r <- news_item_of ent m ;;
      collect_from ent rest
        (match r with
         | Some item => out ++ [item]
         | None => out
         end)
  end.

Definition collect_items (ent : Entity.t) (msgs : list update)
  : outcome lib_error (list NewsItem.t) :=
  collect_from ent msgs [].

(** An optional URL that passes validation. *)
Definition accepted (x : option pystr) : bool :=
  match x with
  | None => true
  | Some s => match HttpUrl s with Some _ => true | None => false end
  end.

(** The task of channel [ch] raises [e]: the channel resolves, and the
    fetch of its messages raises, or the construction of an item from a
    fetched message does. *)
Definition task_raises (limit offset_id : Z) (ch : pystr) (e : lib_error)
  : Prop :=
  exists ent,
    resolve_channel ch = Return ent
    /\ (get_messages tg_client ent limit offset_id = Raise e
        \/ exists msgs,
             get_messages tg_client ent limit offset_id = Return msgs
             /\ collect_items ent msgs = Raise e).

(** What holds of an entry of [errors]: the key is a requested channel
    that failed to resolve, the value the detail of its [HTTPException]. *)
Definition recorded (chans : list pystr) (kv : pystr * pystr) : Prop :=
  In (fst kv) chans
  /\ exists cause,
       resolve_channel (fst kv) = Raise (cannot_resolve (fst kv) cause)
       /\ snd kv = u "Cannot resolve channel '" ++ fst kv ++ u "': "
                   ++ error_str cause.

(** The closure [fetch_one] of [get_news]: it reads [limit] and
    [offset_id] and writes the shared [errors]. *)
Definition fetch_one (limit offset_id : Z) (ch : pystr) (errors : dict)
  : outcome exn (list NewsItem.t) * dict :=
  match resolve_channel ch with
  | Raise (HTTPException _ detail) => (Return [], dict_set ch detail errors)
  | Raise (LibError ex) =>
      (Return [],
       dict_set ch (error_name ex ++ u ": " ++ error_str ex) errors)
  | Return ent =>
      (msgs <- call (get_messages tg_client ent limit offset_id) ;;
       call (collect_items ent msgs),
       errors)
  end.

(** [asyncio.gather] over [fetch_one(c) for c in chan_list]: the results
    come in the order of [chan_list], and an exception a task lets out is
    raised by [gather].  The tasks are run here one after another; the
    event loop may interleave them, which changes only the order in which
    the keys enter [errors] and which of several failing tasks is the one
    whose exception is raised.  What is proved below reads [errors] as a
    set of entries and names a failing task by [exists]. *)
Fixpoint gather (limit offset_id : Z) (chans : list pystr) (errors : dict)
  : outcome exn (list (list NewsItem.t)) * dict :=
  match chans with
  | [] => (Return [], errors)
  | ch :: rest =>
      match fetch_one limit offset_id ch errors with
      | (Raise ex, errors1) => (Raise ex, errors1)
      | (Return arr, errors1) =>
          match gather limit offset_id rest errors1 with
          | (Raise ex, errors2) => (Raise ex, errors2)
          | (Return arrs, errors2) => (Return (arr :: arrs), errors2)
          end
      end
  end.

(** [min(int(x) for x in ids)]: the running minimum [cur] of a lazily
    parsed sequence. *)
Fixpoint min_from (cur : Z) (ids : list pystr) : outcome lib_error Z :=
  match ids with
  | [] => Return cur
  | s :: rest =>
      v <- py_int s ;;
      min_from (if v <? cur then v else cur) rest
  end.

Definition py_min_int (ids : list pystr) : outcome lib_error Z :=
  match ids with
  | [] => Raise (ValueError (u "min() arg is an empty sequence"))
  | s :: rest => v <- py_int s ;; min_from v rest
  end.

(** Lines 193-198: the pagination cursor of a page. *)
Definition next_offset_of (results : list NewsItem.t) : option Z :=
  match results with
  | [] => None
  | _ :: _ =>
      match py_min_int (map NewsItem.id results) with
      | Return z => Some z
      | Raise _ => None
      end
  end.

(** Lines 184-189: the three sort modes. *)
Definition sort_results (sort : pystr) (results : list NewsItem.t)
  : list NewsItem.t :=
  if str_eqb sort (u "newest") then
    list_sort NewsItem.publishedAt Z.ltb true results
  else if str_eqb sort (u "oldest") then
    list_sort NewsItem.publishedAt Z.ltb false results
  else
    list_sort
      (fun x => (str_lower (NewsItem.source x), NewsItem.publishedAt x))
      tuple_ltb true results.

(** The value set for the header [X-TG-Errors], when it is set. *)
Definition errors_header (errors : dict) : option pystr :=
  match errors with
  | [] => None
  | _ :: _ =>
      Some (str_join (u "; ")
              (map (fun kv => fst kv ++ u ":" ++ snd kv) errors))
  end.

(** [value.encode("latin-1")], as the assignment of a header does it: the
    string goes through when every character is below 256, else
    [UnicodeEncodeError] is raised (its text, which names the positions,
    is not reproduced; nothing in the handlers reads it). *)
Definition latin1 (s : pystr) : bool := forallb (fun c => (c <? 256)%N) s.

Definition encode_latin1 (value : pystr) : outcome lib_error pystr :=
  if latin1 value then Return value
  else Raise (OtherError (u "UnicodeEncodeError")
                (u "'latin-1' codec can't encode characters")).

(** Lines 201-202: [response.headers["X-TG-Errors"] = ...] when [errors]
    is not empty; the header as then set. *)
Definition set_errors_header (errors : dict)
  : outcome lib_error (option pystr) :=
  match errors_header errors with
  | None => Return None
  | Some value => v <- encode_latin1 value ;; Return (Some v)
  end.

(** Line 134: the channels a request asks for. *)
Definition chan_list_of (channels : option pystr) : list pystr :=
  stripped_nonempty
    (match channels with
     | Some cs => if truthy cs then str_split COMMA cs else DEFAULT_CHANNELS
     | None => DEFAULT_CHANNELS
     end).

(** [for arr in fetched: results.extend(arr)] *)
Definition extend_all (fetched : list (list NewsItem.t)) : list NewsItem.t :=
  fold_left (fun results arr => results ++ arr) fetched [].

(** [get_news]: the body it returns and the [X-TG-Errors] header it sets on
    the injected [response] (FastAPI always injects one). *)
Definition get_news (channels : option pystr) (limit offset_id : Z)
    (sort : pystr) : outcome exn (NewsList.t * option pystr) :=
  match chan_list_of channels with
  | [] => Return (NewsList.mk 0 [] None, None)
  | chan_list =>
      let '(fetched, errors) := gather limit offset_id chan_list [] in
      fetched <- fetched ;;
      let results := extend_all fetched in
      let results := sort_results sort results in
      let results := slice_upto results limit in
      let next_offset := next_offset_of results in
      header <- call (set_errors_header errors) ;;
      Return (NewsList.mk (Z.of_nat (length results)) results next_offset,
              header)
  end.

(** [msg.video and getattr(msg.video, "mime_type", None)]: the declared
    mime type when it is there and not empty. *)
Definition declared_mime (d : option Document.t) : option pystr :=
  match d with
  | Some doc =>
      match Document.mime_type doc with
      | Some m => if truthy m then Some m else None
      | None => None
      end
  | None => None
  end.

Definition is_some {A} (x : option A) : bool :=
  match x with
  | Some _ => true
  | None => false
  end.

(** Lines 229-235 of [proxy_media]. *)
Definition media_type_of (msg : Message.t) : pystr :=
  match declared_mime (Message.video msg) with
  | Some m => m
  | None =>
      match declared_mime (Message.document msg) with
      | Some m => m
      | None =>
          if is_some (Message.photo msg) then u "image/jpeg"
          else u "application/octet-stream"
      end
  end.

Definition media_not_found : exn := HTTPException 404 (u "Media not found").

(** [proxy_media]: the bytes streamed and their media type. *)
Definition proxy_media (channel_id message_id : Z)
  : outcome exn (list Byte.byte * pystr) :=
  ent <- call (get_entity tg_client (ById channel_id)) ;;
  msg <- call (get_message tg_client ent message_id) ;;
  match msg with
  | None => Raise media_not_found
  | Some msg =>
      if negb (is_some (Message.photo msg) || is_some (Message.video msg)
               || is_some (Message.document msg))
      then Raise media_not_found
      else
        buf <- call (download_media tg_client msg) ;;
        Return (buf, media_type_of msg)
  end.

(** The dict [media_info] builds: [{"kind": "photo"}], or a kind with the
    attachment's [mime] and [size]. *)
Inductive media_dict : Type :=
| PhotoInfo
| VideoInfo (mime : option pystr) (size : option Z)
| DocumentInfo (mime : option pystr) (size : option Z).

Definition media_info (msg : Message.t) : option media_dict :=
  match Message.photo msg with
  | Some _ => Some PhotoInfo
  | None =>
      match Message.video msg with
      | Some v => Some (VideoInfo (Document.mime_type v) (Document.size v))
      | None =>
          match Message.document msg with
          | Some d =>
              Some (DocumentInfo (Document.mime_type d) (Document.size d))
          | None => None
          end
      end
  end.

(** [list_default_channels]: the value under ["channels"]. *)
Definition list_default_channels : list pystr := DEFAULT_CHANNELS.

End Handlers.

Section Settings.

(** The environment variable [CORS_ORIGINS], [None] when unset. *)
Variable CORS_ORIGINS_env : option pystr.

(** Line 24: [(os.getenv("CORS_ORIGINS") or "http://localhost:5174").split(",")] *)
Definition CORS_ORIGINS : list pystr :=
  str_split COMMA
    (match CORS_ORIGINS_env with
     | Some s => if truthy s then s else u "http://localhost:5174"
     | None => u "http://localhost:5174"
     end).

(** Line 33: [[o.strip() for o in CORS_ORIGINS]] *)
Definition allow_origins : list pystr := map strip CORS_ORIGINS.

End Settings.
End App.
Import App.

(** ** The specification's wording, for comparison *)

(** [old in s] *)
Fixpoint str_contains (old s : pystr) : bool :=
  starts_with old s
  || match s with
     | [] => false
     | _ :: s' => str_contains old s'
     end.

(** "strip a leading prefix": only at the start, only once. *)
Definition remove_prefix (p s : pystr) : pystr :=
  if starts_with p s then skipn (length p) s else s.

(** Section 4.1 as worded: strip surrounding whitespace; strip a leading
    [https://t.me/] prefix and any leading [@]. *)
Definition normalize_as_worded (entity : pystr) : pystr :=
  drop_while (N.eqb AT) (remove_prefix TME (strip entity)).

(** "the substring up to (not including) the first newline" *)
Fixpoint up_to_newline (s : pystr) : pystr :=
  match s with
  | [] => []
  | c :: s' => if (c =? NEWLINE)%N then [] else c :: up_to_newline s'
  end.

(** Section 4.2 as worded: the first line, truncated to 120 characters,
    with the fallback ["Post"] when that is empty. *)
Definition title_as_worded (body : pystr) : pystr :=
  match firstn 120 (up_to_newline body) with
  | [] => u "Post"
  | t => t
  end.

(** [a <= b] on strings. *)
Definition str_leb (a b : pystr) : bool := negb (str_ltb b a).

(** Section 4.4 as worded: an attachment's "declared mime type, if
    present" (an empty string counts as absent, as it is falsy). *)
Definition declares (d : option Document.t) (mime : pystr) : Prop :=
  exists doc, d = Some doc /\ Document.mime_type doc = Some mime /\ mime <> [].

Definition declares_nothing (d : option Document.t) : Prop :=
  forall mime, ~ declares d mime.

(** "carries none of photo, video, document" *)
Definition no_attachment (m : Message.t) : Prop :=
  Message.photo m = None /\ Message.video m = None /\ Message.document m = None.

(** ** Notions used to state further properties *)

(** A channel name as the handlers keep it: not empty, no white space
    around it, no comma in it. *)
Definition clean_name (c : pystr) : Prop :=
  c <> [] /\ strip c = c /\ ~ In COMMA c.

(** A query character that separates names or pads them. *)
Definition blank_or_comma (c : N) : Prop := c = COMMA \/ is_space c = true.

(** The call returned. *)
Definition is_return {E A} (r : outcome E A) : bool :=
  match r with
  | Return _ => true
  | Raise _ => false
  end.

(** A library exception that makes [resolve_channel] try the numeric id. *)
Definition is_username_error (e : lib_error) : bool :=
  match e with
  | UsernameInvalidError _ | UsernameNotOccupiedError _ => true
  | _ => false
  end.

(** [a] is a prefix of [b]. *)
Definition is_prefix (a b : pystr) : Prop := exists rest, b = a ++ rest.

(** Number of occurrences of a character. *)
Definition count_char (c : N) (s : pystr) : nat :=
  length (filter (N.eqb c) s).

(** Items whose publication time is [t]. *)
Definition published_at (t : Z) (l : list NewsItem.t) : list NewsItem.t :=
  filter (fun x => NewsItem.publishedAt x =? t) l.

(** Items whose lower-cased source is [s] and publication time is [t]. *)
Definition from_source_at (lower : pystr -> pystr) (s : pystr) (t : Z)
    (l : list NewsItem.t) : list NewsItem.t :=
  filter (fun x => str_eqb (lower (NewsItem.source x)) s
                   && (NewsItem.publishedAt x =? t)) l.

(** ** A small client to run the handlers on *)

Module Demo.

(** Lower-casing of the ASCII letters. *)
Definition lower (s : pystr) : pystr :=
  map (fun c => if ((65 <=? c) && (c <=? 90))%N then (c + 32)%N else c) s.

(** Parsing of plain decimal numerals, the shape [str] prints. *)
Definition int (s : pystr) : outcome lib_error Z :=
  if forallb (fun c => (c <? 256)%N) s then
    match NilZero.int_of_string (string_of_list_ascii (map ascii_of_N s)) with
    | Some d => Return (Z.of_int d)
    | None => Raise (ValueError (u "invalid literal for int() with base 10"))
    end
  else Raise (ValueError (u "invalid literal for int() with base 10")).

Definition text_message (n : Z) (body : string) (date : Z) : update :=
  IsMessage (Message.mk n (Some (u body)) date None None None None).

Definition photo_message (n : Z) (date : Z) : Message.t :=
  Message.mk n None date None (Some tt) None None.

Definition video_message (n : Z) (date : Z) : Message.t :=
  Message.mk n (Some (u "clip")) date None None
    (Some (Document.mk (Some (u "video/mp4")) (Some 2048)))
    (Some (Document.mk (Some (u "video/mp4")) (Some 2048))).

(** A validator that takes the strings beginning with [http://] or
    [https://] and keeps them as they are. *)
Definition http_url (s : pystr) : option pystr :=
  if starts_with (u "http://") s || starts_with (u "https://") s
  then Some s else None.

Definition validchan : Entity.t :=
  Entity.mk 1001 (Has (Some (u "Valid Channel"))) Missing
    (Some (u "validchan")).
Definition daily : Entity.t :=
  Entity.mk 1002 (Has (Some (u "daily news"))) Missing None.
Definition flooded : Entity.t :=
  Entity.mk 1003 (Has (Some (u "Flooded"))) Missing (Some (u "flooded")).
(** A user without a first name. *)
Definition nameless : Entity.t :=
  Entity.mk 1004 Missing (Has None) (Some (u "nameless")).
(** A channel whose post previews a link that is not http(s). *)
Definition linker : Entity.t :=
  Entity.mk 1005 (Has (Some (u "Linker"))) Missing (Some (u "linker")).

(** The name [U+043A U+0430 U+043D U+0430 U+043B], in Cyrillic letters. *)
Definition kanal : pystr := [1082; 1072; 1085; 1072; 1083]%N.

Definition history (ent : Entity.t) : list update :=
  if Entity.id ent =? 1001 then
    [ text_message 10 "Hello
world" 500;
      text_message 9 "" 400;
      NotMessage;
      IsMessage (photo_message 8 300);
      text_message 7 "  Third  " 200;
      text_message 6 "Oldest" 100 ]
  else if Entity.id ent =? 1002 then
    [ IsMessage (video_message 21 450); text_message 20 "Morning" 150 ]
  else if Entity.id ent =? 1004 then
    [ text_message 31 "Hi" 120 ]
  else if Entity.id ent =? 1005 then
    [ IsMessage
        (Message.mk 41 (Some (u "Files")) 130
           (Some (MessageMedia.mk
                    (Some (WebPage.mk (Some (u "ftp://files.example/a"))))))
           None None None) ]
  else [].

Definition msg_id_of (m : update) : Z :=
  match m with
  | IsMessage m => Message.id m
  | NotMessage => 0
  end.

Definition client : Client :=
  {| get_entity p :=
       match p with
       | ByName n =>
           if str_eqb n (u "validchan") then Return validchan
           else if str_eqb n (u "flooded") then Return flooded
           else if str_eqb n (u "nameless") then Return nameless
           else if str_eqb n (u "linker") then Return linker
           else if str_eqb n (u "1002") then
             Raise (UsernameInvalidError (u "Nobody is using this username"))
           else if str_eqb n (u "timeout") then
             Raise (OtherError (u "ConnectionError") (u "Connection lost"))
           else Raise (UsernameNotOccupiedError (u "The username is not in use"))
       | ById n =>
           if n =? 1001 then Return validchan
           else if n =? 1002 then Return daily
           else if n =? 1003 then Return flooded
           else Raise (ValueError (u "Could not find the input entity"))
       end;
     get_messages ent limit offset_id :=
       if Entity.id ent =? 1003 then
         Raise (OtherError (u "FloodWaitError") (u "A wait of 30 seconds is required"))
       else
         Return (firstn (Z.to_nat limit)
                   (filter (fun m => (offset_id =? 0) || (msg_id_of m <? offset_id))
                      (history ent)));
     get_message ent n :=
       Return
         match find (fun m => msg_id_of m =? n) (history ent) with
         | Some (IsMessage m) => Some m
         | _ => None
         end;
     download_media m :=
       if is_some (Message.photo m) then Return [Byte.xff; Byte.xd8; Byte.xff]
       else if is_some (Message.video m) then Return [Byte.x00; Byte.x00]
       else Raise (OtherError (u "RPCError") (u "file reference expired")) |}.

Definition get_news := get_news client None lower int http_url.
Definition proxy_media := proxy_media client.

Definition item (n : Z) (source : string) (date : Z) : NewsItem.t :=
  NewsItem.mk (py_str n) 0 None (u source) (u "post") (u "post") (u source)
    None None None date [] None.

(** The posts of two channels as [get_news] merges them, channel after
    channel; the channels posted at the same two times. *)
Definition merged : list NewsItem.t :=
  [ item 10 "alpha" 500; item 7 "alpha" 200;
    item 21 "beta" 500; item 20 "beta" 200 ].

End Demo.

(** * Properties *)

(** Runs [get_news] on the sample client: it returns, and the goal is
    left to be shown of what it returned. *)
Ltac run_get_news resp hdr H :=
  match goal with
  | |- exists _ _, ?run = Return _ /\ _ =>
      destruct run as [[resp hdr]|?] eqn:H;
      [ exists resp, hdr; split; [reflexivity|]
      | exfalso; vm_compute in H; discriminate ]
  end.


(** ** Strings *)

Lemma str_eqb_eq (a b : pystr) : str_eqb a b = true <-> a = b.
Proof.
  unfold str_eqb. destruct (list_eq_dec N.eq_dec a b); split; congruence.
Qed.

Lemma str_eqb_refl (a : pystr) : str_eqb a a = true.
Proof. now apply str_eqb_eq. Qed.

Lemma str_eqb_neq (a b : pystr) : str_eqb a b = false <-> a <> b.
Proof.
  unfold str_eqb. destruct (list_eq_dec N.eq_dec a b); split; congruence.
Qed.

Lemma truthy_false (s : pystr) : truthy s = false <-> s = [].
Proof. destruct s; simpl; split; congruence. Qed.

Lemma truthy_true (s : pystr) : truthy s = true <-> s <> [].
Proof. destruct s; simpl; split; congruence. Qed.

Lemma starts_with_app (p s : pystr) : starts_with p (p ++ s) = true.
Proof.
  induction p as [|a p IH]; simpl; [reflexivity|].
  now rewrite N.eqb_refl, IH.
Qed.

Lemma starts_with_prefix (p s : pystr) :
  starts_with p s = true -> s = p ++ skipn (length p) s.
Proof.
  revert s. induction p as [|a p IH]; intros s H; simpl in *; [reflexivity|].
  destruct s as [|b s]; [discriminate|].
  apply andb_prop in H as [Hab Hp]. apply N.eqb_eq in Hab. subst b.
  simpl. f_equal. now apply IH.
Qed.

(** The scan of [replace_from] with [k] characters left to pass over is
    the scan started afresh behind them. *)
Lemma replace_from_skip (old new : pystr) (k : nat) (s : pystr) :
  replace_from old new k s = replace_from old new O (skipn k s).
Proof.
  revert s. induction k as [|k IH]; intros s; [reflexivity|].
  destruct s as [|c s]; [reflexivity|]. simpl skipn. rewrite <- IH.
  reflexivity.
Qed.

(** [str.replace] one step at a time: at an occurrence of [old] the
    result continues with [new] and the scan resumes behind the occurrence;
    elsewhere the character is kept. *)
Lemma str_replace_cons (o : N) (old new : pystr) (c : N) (s : pystr) :
  str_replace (o :: old) new (c :: s) =
  if starts_with (o :: old) (c :: s)
  then new ++ str_replace (o :: old) new (skipn (length (o :: old)) (c :: s))
  else c :: str_replace (o :: old) new s.
Proof.
  unfold str_replace. cbn [replace_from].
  destruct (starts_with (o :: old) (c :: s)); [|reflexivity].
  now rewrite replace_from_skip.
Qed.

Lemma str_replace_nil (old new : pystr) : str_replace old new [] = [].
Proof. reflexivity. Qed.

(** Nothing changes where [old] does not occur. *)
Lemma str_replace_absent (o : N) (old new s : pystr) :
  str_contains (o :: old) s = false -> str_replace (o :: old) new s = s.
Proof.
  induction s as [|c s IH]; intros H; [reflexivity|].
  rewrite str_replace_cons.
  cbn [str_contains] in H. apply orb_false_elim in H as [H1 H2].
  rewrite H1. f_equal. now apply IH.
Qed.

(** At an occurrence of [old] that begins the string. *)
Lemma str_replace_prefix (o : N) (old new s : pystr) :
  str_replace (o :: old) new ((o :: old) ++ s) =
  new ++ str_replace (o :: old) new s.
Proof.
  cbn [app]. rewrite str_replace_cons.
  change (o :: old ++ s) with ((o :: old) ++ s).
  rewrite starts_with_app, skipn_app, skipn_all, Nat.sub_diag.
  reflexivity.
Qed.

(** Replacing a one-character string by nothing deletes that character
    everywhere. *)
Lemma str_replace_char (c : N) (s : pystr) :
  str_replace [c] [] s = filter (fun x => negb (x =? c)%N) s.
Proof.
  induction s as [|x s IH]; [reflexivity|].
  rewrite str_replace_cons. cbn [starts_with skipn length filter app].
  rewrite andb_true_r, (N.eqb_sym c x).
  destruct (x =? c)%N; simpl; now rewrite IH.
Qed.

Lemma drop_while_head {A} (p : A -> bool) (l : list A) (x : A) (r : list A) :
  drop_while p l = x :: r -> p x = false.
Proof.
  induction l as [|y l IH]; simpl; [discriminate|].
  destruct (p y) eqn:Hy; [exact IH|]. intros [= -> _]. exact Hy.
Qed.

Lemma drop_while_app_keep {A} (p : A -> bool) (l : list A) (x : A) :
  p x = false -> drop_while p (l ++ [x]) = drop_while p l ++ [x].
Proof.
  intros Hx. induction l as [|y l IH]; simpl; [now rewrite Hx|].
  destruct (p y); [exact IH | reflexivity].
Qed.

Lemma rstrip_cons (c : N) (s : pystr) :
  is_space c = false -> rstrip (c :: s) = c :: rstrip s.
Proof.
  intros Hc. unfold rstrip. simpl rev.
  rewrite drop_while_app_keep by exact Hc.
  now rewrite rev_app_distr.
Qed.

(** A stripped string is empty or begins with a character that is not
    white space. *)
Lemma strip_head (s : pystr) (c : N) (r : pystr) :
  strip s = c :: r -> is_space c = false.
Proof.
  unfold strip, lstrip. intros H.
  destruct (drop_while is_space s) as [|x l] eqn:Hl; [discriminate|].
  pose proof (drop_while_head _ _ _ _ Hl) as Hx.
  rewrite rstrip_cons in H by exact Hx. now injection H as -> _.
Qed.

(** [s.split("\n", 1)[0]] is the part of [s] before its first newline. *)
Lemma split1_first (s : pystr) :
  nth 0 (str_split1 NEWLINE s) [] = up_to_newline s.
Proof.
  induction s as [|c s IH]; [reflexivity|]. simpl.
  destruct (c =? NEWLINE)%N; [reflexivity|].
  destruct (str_split1 NEWLINE s) as [|w ws]; simpl in *; now rewrite <- IH.
Qed.

Lemma str_split1_nonempty (sep : N) (s : pystr) : str_split1 sep s <> [].
Proof.
  destruct s as [|c s]; simpl; [discriminate|].
  destruct (c =? sep)%N; [discriminate|].
  destruct (str_split1 sep s); discriminate.
Qed.

(** ** The identifier handed to the lookup *)

Lemma TME_cons : TME = 104%N :: tl TME.
Proof. reflexivity. Qed.

Lemma contains_TME_ats (ats rest : pystr) :
  Forall (eq AT) ats -> str_contains TME rest = false ->
  str_contains TME (ats ++ rest) = false.
Proof.
  intros Hats Hrest. induction Hats as [|a ats Ha _ IH]; [exact Hrest|].
  subst a. cbn [app str_contains]. rewrite IH, orb_false_r. reflexivity.
Qed.

Lemma filter_ats (ats rest : pystr) :
  Forall (eq AT) ats -> ~ In AT rest ->
  filter (fun x => negb (x =? AT)%N) (ats ++ rest) = rest.
Proof.
  intros Hats Hrest. induction Hats as [|a ats Ha _ IH].
  - cbn [app]. induction rest as [|x rest IHr]; [reflexivity|].
    cbn [filter]. destruct (N.eqb_spec x AT) as [->|Hx].
    + exfalso. apply Hrest. now left.
    + cbn [negb]. f_equal. apply IHr. intros Hin. apply Hrest. now right.
  - subst a. cbn [app filter]. rewrite N.eqb_refl. exact IH.
Qed.

Lemma drop_ats (ats rest : pystr) :
  Forall (eq AT) ats -> ~ In AT rest ->
  drop_while (N.eqb AT) (ats ++ rest) = rest.
Proof.
  intros Hats Hrest. induction Hats as [|a ats Ha _ IH].
  - cbn [app]. destruct rest as [|x rest]; [reflexivity|]. cbn [drop_while].
    destruct (N.eqb_spec AT x) as [<-|Hx]; [|reflexivity].
    exfalso. apply Hrest. now left.
  - subst a. cbn [app drop_while]. rewrite N.eqb_refl. exact IH.
Qed.

(** Every [@] is deleted, wherever it stands. *)
Lemma normalize_identifier_filter (entity : pystr) :
  normalize_identifier entity =
  filter (fun x => negb (x =? AT)%N) (str_replace TME [] (strip entity)).
Proof. unfold normalize_identifier. apply str_replace_char. Qed.

(** C2, as amended.  The string handed to the lookup is the stripped
    identifier with every occurrence of [https://t.me/] deleted in a scan
    from the left, then every [@] deleted, wherever they stand: no [@] is
    left in it.  Where the stripped identifier is an optional leading
    [https://t.me/], then leading [@]s, then a remainder holding neither
    [@] nor [https://t.me/], the result is that remainder, as the
    leading-only wording has it. *)
Theorem normalize_identifier_deletes_everywhere (entity : pystr) :
  normalize_identifier entity =
    filter (fun x => negb (x =? AT)%N) (str_replace TME [] (strip entity))
  /\ ~ In AT (normalize_identifier entity)
  /\ (forall ats rest : pystr,
        Forall (eq AT) ats -> ~ In AT rest ->
        str_contains TME rest = false ->
        strip entity = ats ++ rest \/ strip entity = TME ++ ats ++ rest ->
        normalize_identifier entity = rest
        /\ normalize_as_worded entity = rest).
Proof.
  split; [apply normalize_identifier_filter|]. split.
  - rewrite normalize_identifier_filter. intros Hin.
    apply filter_In in Hin as [_ Hin]. now rewrite N.eqb_refl in Hin.
  - intros ats rest Hats Hrest Hc Hs.
    pose proof (contains_TME_ats ats rest Hats Hc) as Hc'.
    assert (Hplain : str_replace TME [] (ats ++ rest) = ats ++ rest).
    { rewrite TME_cons in *. now apply str_replace_absent. }
    rewrite normalize_identifier_filter. unfold normalize_as_worded.
    destruct Hs as [-> | ->].
    + rewrite Hplain. split; [now apply filter_ats|].
      unfold remove_prefix.
      assert (Hsw : starts_with TME (ats ++ rest) = false).
      { cbn [str_contains] in Hc'. destruct (ats ++ rest);
          now apply orb_false_elim in Hc' as [? _]. }
      rewrite Hsw. now apply drop_ats.
    + assert (Hcut : str_replace TME [] (TME ++ ats ++ rest) = ats ++ rest).
      { rewrite TME_cons in *. rewrite str_replace_prefix. exact Hplain. }
      rewrite Hcut. split; [now apply filter_ats|].
      unfold remove_prefix. rewrite starts_with_app.
      rewrite skipn_app, skipn_all, Nat.sub_diag. simpl.
      now apply drop_ats.
Qed.

(** The claim as worded fails on an [@] inside the identifier: the code
    deletes it, the wording keeps it. *)
Lemma normalize_identifier_inner_at :
  normalize_identifier (u "news@feed") = u "newsfeed"
  /\ normalize_as_worded (u "news@feed") = u "news@feed"
  /\ normalize_identifier (u "news@feed") <> normalize_as_worded (u "news@feed").
Proof. vm_compute. repeat split; discriminate. Qed.

Lemma normalize_identifier_url_handle :
  strip (u "  https://t.me/@durov ") = TME ++ [AT] ++ u "durov"
  /\ normalize_identifier (u "  https://t.me/@durov ") = u "durov"
  /\ normalize_as_worded (u "  https://t.me/@durov ") = u "durov".
Proof.
  assert (Hs : strip (u "  https://t.me/@durov ") = TME ++ [AT] ++ u "durov")
    by reflexivity.
  split; [exact Hs|].
  apply (proj2 (proj2 (normalize_identifier_deletes_everywhere
                         (u "  https://t.me/@durov "))) [AT] (u "durov"));
    [ repeat constructor
    | vm_compute; intuition discriminate
    | reflexivity
    | right; exact Hs ].
Defined.

(** ** Sorting *)

Section SortFacts.
Context {A K : Type} (key : A -> K) (lt : K -> K -> bool).
Hypothesis lt_asym : forall a b, lt a b = true -> lt b a = false.
Hypothesis le_trans :
  forall a b c, lt b a = false -> lt c b = false -> lt c a = false.

Lemma insert_sorted_perm (x : A) (l : list A) :
  Permutation (insert_sorted key lt x l) (x :: l).
Proof.
  induction l as [|y l IH]; simpl; [reflexivity|].
  destruct (lt (key x) (key y)); [reflexivity|].
  rewrite IH. apply perm_swap.
Qed.

Lemma insert_sorted_sorted (x : A) (l : list A) :
  StronglySorted (not_after key lt) l ->
  StronglySorted (not_after key lt) (insert_sorted key lt x l).
Proof.
  induction 1 as [|y l Hs IH Hy]; simpl; [repeat constructor|].
  destruct (lt (key x) (key y)) eqn:Hxy.
  - constructor; [now constructor|].
    assert (Hx : not_after key lt x y) by (apply lt_asym; exact Hxy).
    constructor; [exact Hx|].
    eapply Forall_impl; [|exact Hy]. intros z Hz.
    unfold not_after in *. eapply le_trans; eassumption.
  - constructor; [exact IH|].
    eapply Permutation_Forall; [symmetry; apply insert_sorted_perm|].
    constructor; [exact Hxy | exact Hy].
Qed.

Lemma sort_asc_perm (l : list A) : Permutation (sort_asc key lt l) l.
Proof.
  unfold sort_asc.
  enough (H : forall acc,
             Permutation
               (fold_left (fun acc x => insert_sorted key lt x acc) l acc)
               (acc ++ l)) by apply (H []).
  induction l as [|x l IH]; intros acc; simpl.
  - now rewrite app_nil_r.
  - rewrite IH, insert_sorted_perm. simpl. apply Permutation_middle.
Qed.

Lemma sort_asc_sorted (l : list A) :
  StronglySorted (not_after key lt) (sort_asc key lt l).
Proof.
  unfold sort_asc.
  enough (H : forall acc,
             StronglySorted (not_after key lt) acc ->
             StronglySorted (not_after key lt)
               (fold_left (fun acc x => insert_sorted key lt x acc) l acc))
    by (apply H; constructor).
  induction l as [|x l IH]; intros acc Hacc; simpl; [exact Hacc|].
  apply IH. now apply insert_sorted_sorted.
Qed.

Lemma list_sort_perm (reverse : bool) (l : list A) :
  Permutation (list_sort key lt reverse l) l.
Proof.
  unfold list_sort. destruct reverse; [|apply sort_asc_perm].
  now rewrite <- Permutation_rev, sort_asc_perm, <- Permutation_rev.
Qed.
End SortFacts.

Lemma StronglySorted_app {A} (R : A -> A -> Prop) (l1 l2 : list A) :
  StronglySorted R l1 -> StronglySorted R l2 ->
  (forall x y, In x l1 -> In y l2 -> R x y) ->
  StronglySorted R (l1 ++ l2).
Proof.
  induction 1 as [|x l1 Hs IH Hx]; intros H2 Hc; simpl; [exact H2|].
  constructor.
  - apply IH; [exact H2|]. intros a b Ha Hb. apply Hc; [now right | exact Hb].
  - apply Forall_app. split; [exact Hx|].
    apply Forall_forall. intros y Hy. apply Hc; [now left | exact Hy].
Qed.

Lemma StronglySorted_rev {A} (R : A -> A -> Prop) (l : list A) :
  StronglySorted R l -> StronglySorted (fun x y => R y x) (rev l).
Proof.
  induction 1 as [|x l Hs IH Hx]; simpl; [constructor|].
  apply StronglySorted_app; [exact IH | repeat constructor|].
  intros a b Ha [<-|[]]. apply in_rev in Ha.
  now apply (proj1 (Forall_forall _ _) Hx).
Qed.

Lemma firstn_In {A} (n : nat) (l : list A) (x : A) :
  In x (firstn n l) -> In x l.
Proof.
  revert n. induction l as [|y l IH]; intros [|n]; simpl; try tauto.
  intros [->|H]; [now left | right; eauto].
Qed.

Lemma slice_upto_In {A} (n : Z) (l : list A) (x : A) :
  In x (slice_upto l n) -> In x l.
Proof. unfold slice_upto. destruct (0 <=? n); apply firstn_In. Qed.

Lemma StronglySorted_firstn {A} (R : A -> A -> Prop) (n : nat) (l : list A) :
  StronglySorted R l -> StronglySorted R (firstn n l).
Proof.
  intros H. revert n. induction H as [|x l Hs IH Hx]; intros [|n]; simpl;
    try constructor.
  - apply IH.
  - apply Forall_forall. intros y Hy.
    apply (proj1 (Forall_forall _ _) Hx). eapply firstn_In; eauto.
Qed.

Lemma StronglySorted_impl {A} (R S : A -> A -> Prop) (l : list A) :
  (forall x y, R x y -> S x y) -> StronglySorted R l -> StronglySorted S l.
Proof.
  intros HRS. induction 1 as [|x l Hs IH Hx]; constructor; [exact IH|].
  eapply Forall_impl; [|exact Hx]. intros; now apply HRS.
Qed.

Lemma StronglySorted_slice {A} (R : A -> A -> Prop) (n : Z) (l : list A) :
  StronglySorted R l -> StronglySorted R (slice_upto l n).
Proof.
  intros H. unfold slice_upto. destruct (0 <=? n); now apply StronglySorted_firstn.
Qed.

Section SortDescending.
Context {A K : Type} (key : A -> K) (lt : K -> K -> bool).
Hypothesis lt_asym : forall a b, lt a b = true -> lt b a = false.
Hypothesis le_trans :
  forall a b c, lt b a = false -> lt c b = false -> lt c a = false.

Lemma list_sort_ascending (l : list A) :
  StronglySorted (not_after key lt) (list_sort key lt false l).
Proof. now apply sort_asc_sorted. Qed.

Lemma list_sort_descending (l : list A) :
  StronglySorted (not_before key lt) (list_sort key lt true l).
Proof.
  unfold list_sort.
  apply (StronglySorted_rev (not_after key lt)). now apply sort_asc_sorted.
Qed.
End SortDescending.

(** ** The orders on the sort keys *)

Lemma Zltb_asym (a b : Z) : (a <? b) = true -> (b <? a) = false.
Proof. lia. Qed.

Lemma Zleb_trans (a b c : Z) :
  (b <? a) = false -> (c <? b) = false -> (c <? a) = false.
Proof. lia. Qed.

Lemma str_compare_eq (a b : pystr) : str_compare a b = Eq <-> a = b.
Proof.
  revert b. induction a as [|x a IH]; intros [|y b]; simpl;
    try (split; congruence).
  destruct (N.compare_spec x y) as [->|Hlt|Hgt].
  - rewrite IH. split; congruence.
  - split; [discriminate|]. intros [= -> _]. lia.
  - split; [discriminate|]. intros [= -> _]. lia.
Qed.

Lemma str_compare_antisym (a b : pystr) :
  str_compare b a = CompOpp (str_compare a b).
Proof.
  revert b. induction a as [|x a IH]; intros [|y b]; simpl; try reflexivity.
  rewrite (N.compare_antisym x y).
  destruct (N.compare x y); simpl; [apply IH | reflexivity | reflexivity].
Qed.

Lemma str_compare_lt_trans (a b c : pystr) :
  str_compare a b = Lt -> str_compare b c = Lt -> str_compare a c = Lt.
Proof.
  revert b c. induction a as [|x a IH]; intros [|y b] [|z c]; simpl;
    try congruence.
  destruct (N.compare_spec x y) as [->|Hxy|Hxy]; try discriminate.
  - destruct (N.compare_spec y z) as [->|Hyz|Hyz]; try discriminate.
    + apply IH.
    + reflexivity.
  - intros _. destruct (N.compare_spec y z) as [->|Hyz|Hyz]; try discriminate.
    + intros _. now apply N.compare_lt_iff in Hxy as ->.
    + intros _. assert (H : (x < z)%N) by lia.
      now apply N.compare_lt_iff in H as ->.
Qed.

Lemma str_ltb_irrefl (a : pystr) : str_ltb a a = false.
Proof.
  unfold str_ltb. now rewrite (proj2 (str_compare_eq a a) eq_refl).
Qed.

Lemma str_ltb_asym (a b : pystr) : str_ltb a b = true -> str_ltb b a = false.
Proof.
  unfold str_ltb. rewrite (str_compare_antisym a b).
  destruct (str_compare a b); simpl; congruence.
Qed.

(** Strings are totally ordered: [a <= b] and [b <= c] give [a <= c]. *)
Lemma str_leb_trans (a b c : pystr) :
  str_ltb b a = false -> str_ltb c b = false -> str_ltb c a = false.
Proof.
  unfold str_ltb. intros Hab Hbc.
  destruct (str_compare c a) eqn:Hca; try reflexivity. exfalso.
  destruct (str_compare b a) eqn:Hba; try discriminate.
  - apply str_compare_eq in Hba. subst b. now rewrite Hca in Hbc.
  - destruct (str_compare c b) eqn:Hcb; try discriminate.
    + apply str_compare_eq in Hcb. subst c. congruence.
    + rewrite (str_compare_antisym a b) in Hba.
      rewrite (str_compare_antisym b c) in Hcb.
      destruct (str_compare a b) eqn:Hab'; try discriminate.
      destruct (str_compare b c) eqn:Hbc'; try discriminate.
      pose proof (str_compare_lt_trans _ _ _ Hab' Hbc') as Hac.
      rewrite (str_compare_antisym a c), Hac in Hca. discriminate.
Qed.

Lemma tuple_ltb_asym (a b : pystr * Z) :
  tuple_ltb a b = true -> tuple_ltb b a = false.
Proof.
  destruct a as [s d], b as [s' d']. unfold tuple_ltb. simpl.
  destruct (str_eqb s s') eqn:E.
  - apply str_eqb_eq in E. subst s'. rewrite str_eqb_refl. lia.
  - intros H. apply str_eqb_neq in E.
    assert (E' : str_eqb s' s = false) by (apply str_eqb_neq; congruence).
    rewrite E'. now apply str_ltb_asym.
Qed.

Lemma tuple_leb_trans (a b c : pystr * Z) :
  tuple_ltb b a = false -> tuple_ltb c b = false -> tuple_ltb c a = false.
Proof.
  destruct a as [s1 d1], b as [s2 d2], c as [s3 d3]. unfold tuple_ltb. simpl.
  destruct (str_eqb s2 s1) eqn:E21.
  - apply str_eqb_eq in E21. subst s2.
    destruct (str_eqb s3 s1) eqn:E31; [lia | tauto].
  - destruct (str_eqb s3 s2) eqn:E32.
    + apply str_eqb_eq in E32. subst s3. rewrite E21. tauto.
    + intros H21 H32. destruct (str_eqb s3 s1) eqn:E31.
      * apply str_eqb_eq in E31. subst s3. exfalso.
        apply str_eqb_neq in E21.
        unfold str_ltb in *. rewrite (str_compare_antisym s2 s1) in H32.
        destruct (str_compare s2 s1) eqn:Hc; try discriminate.
        apply str_compare_eq in Hc. congruence.
      * eapply str_leb_trans; eassumption.
Qed.

(** ** The message normalizer *)

Lemma title_as_worded_eq (text : pystr) :
  (let first_line := firstn 120 (nth 0 (str_split1 NEWLINE text) []) in
   if truthy first_line then first_line else u "Post")
  = title_as_worded text.
Proof.
  cbv zeta. rewrite split1_first. unfold title_as_worded.
  now destruct (firstn 120 (up_to_newline text)).
Qed.

Lemma pick_title_and_url_fields (m : Message.t) :
  let body := strip (or_empty (Message.message m)) in
  exists url, pick_title_and_url m = (title_as_worded body, body, url).
Proof.
  cbv zeta. unfold pick_title_and_url. eexists.
  rewrite <- title_as_worded_eq. reflexivity.
Qed.

(** A body that survives stripping has a first line, so the title of a
    kept message is never the fallback. *)
Lemma title_of_nonempty_body (body : pystr) :
  strip body <> [] ->
  title_as_worded (strip body) = firstn 120 (up_to_newline (strip body))
  /\ title_as_worded (strip body) <> [].
Proof.
  intros Hne. destruct (strip body) as [|c r] eqn:Hs; [contradiction|].
  apply strip_head in Hs.
  assert (Hc : (c =? NEWLINE)%N = false).
  { destruct (N.eqb_spec c NEWLINE) as [->|]; [discriminate Hs | reflexivity]. }
  unfold title_as_worded. cbn [up_to_newline]. rewrite Hc.
  cbn [firstn]. split; [reflexivity | discriminate].
Qed.

Section Normalizer.
Variable HttpUrl : pystr -> option pystr.

Local Abbreviation NewsItem_init := (App.NewsItem_init HttpUrl).
Local Abbreviation news_item_of := (App.news_item_of HttpUrl).
Local Abbreviation collect_from := (App.collect_from HttpUrl).
Local Abbreviation collect_items := (App.collect_items HttpUrl).
Local Abbreviation accepted := (App.accepted HttpUrl).

Lemma validate_optional_url_cases (x : option pystr) :
  (accepted x = true /\ exists v, validate_optional_url HttpUrl x = Return v)
  \/ (accepted x = false
      /\ validate_optional_url HttpUrl x = Raise ValidationError).
Proof.
  destruct x as [s|]; simpl; [|left; eauto].
  destruct (HttpUrl s); [left; eauto | right; auto].
Qed.

(** What the constructor does: it raises [ValidationError], or returns
    the item with the string fields as given and the URLs as validated. *)
Lemma NewsItem_init_cases id channel_id channel_username channel_title
    title text source sourceUrl url summary publishedAt tags media :
  (NewsItem_init id channel_id channel_username channel_title title text
     source sourceUrl url summary publishedAt tags media
   = Raise ValidationError
   /\ (channel_title = None \/ source = None
       \/ accepted sourceUrl = false \/ accepted url = false))
  \/ (exists ct src su uu,
        channel_title = Some ct /\ source = Some src
        /\ accepted sourceUrl = true /\ accepted url = true
        /\ validate_optional_url HttpUrl sourceUrl = Return su
        /\ validate_optional_url HttpUrl url = Return uu
        /\ NewsItem_init id channel_id channel_username channel_title title
             text source sourceUrl url summary publishedAt tags media
           = Return (NewsItem.mk id channel_id channel_username ct title text
                       src su uu summary publishedAt tags media)).
Proof.
  unfold App.NewsItem_init.
  destruct channel_title as [ct|]; [|left; cbn; auto].
  destruct source as [src|]; [|left; cbn; auto].
  cbn [validate_str bind].
  destruct (validate_optional_url_cases sourceUrl) as [[Ha [su Hs]]|[Ha Hs]];
    rewrite Hs; cbn [bind]; [|left; auto].
  destruct (validate_optional_url_cases url) as [[Hb [uu Hu]]|[Hb Hu]];
    rewrite Hu; cbn [bind]; [|left; auto 6].
  right. exists ct, src, su, uu. auto 10.
Qed.

Lemma news_item_of_dropped ent (m : Message.t) :
  strip (or_empty (Message.message m)) = [] ->
  news_item_of ent (IsMessage m) = Return None.
Proof.
  intros H. unfold App.news_item_of.
  destruct (pick_title_and_url_fields m) as [url ->]. cbv zeta.
  now rewrite H.
Qed.

(** A message that is kept: the constructor decides between an item and
    [ValidationError]; the item has the fields the loop passes. *)
Lemma news_item_of_kept ent (m : Message.t) :
  let body := strip (or_empty (Message.message m)) in
  body <> [] ->
  (news_item_of ent (IsMessage m) = Raise ValidationError
   /\ (chan_title_of ent = None
       \/ accepted (link_of (Entity.username ent)) = false
       \/ accepted (snd (pick_title_and_url m)) = false))
  \/ (exists item,
        news_item_of ent (IsMessage m) = Return (Some item)
        /\ chan_title_of ent <> None
        /\ accepted (link_of (Entity.username ent)) = true
        /\ accepted (snd (pick_title_and_url m)) = true
        /\ NewsItem.id item = py_str (Message.id m)
        /\ NewsItem.text item = body
        /\ NewsItem.title item = title_as_worded body
        /\ NewsItem.publishedAt item = Message.date m
        /\ chan_title_of ent = Some (NewsItem.channel_title item)
        /\ NewsItem.source item = NewsItem.channel_title item
        /\ NewsItem.channel_id item = Entity.id ent
        /\ NewsItem.channel_username item = Entity.username ent
        /\ validate_optional_url HttpUrl (link_of (Entity.username ent))
           = Return (NewsItem.sourceUrl item)
        /\ validate_optional_url HttpUrl (snd (pick_title_and_url m))
           = Return (NewsItem.url item)
        /\ NewsItem.summary item = None
        /\ NewsItem.tags item = []
        /\ NewsItem.media item = None).
Proof.
  cbv zeta. intros H. unfold App.news_item_of.
  destruct (pick_title_and_url_fields m) as [url ->]. cbv zeta. cbn [snd].
  apply truthy_true in H. rewrite H. cbn [negb].
  match goal with
  | |- context [App.NewsItem_init _ ?a ?b ?c ?d ?e ?f ?g ?h ?i ?j ?k ?l ?m'] =>
      destruct (NewsItem_init_cases a b c d e f g h i j k l m')
        as [[Hi Hw]|(ct & src & su & uu & Hct & Hsrc & Ha & Hb & Hs & Hu & Hi)];
      rewrite Hi; cbn [bind]
  end.
  - left. split; [reflexivity|]. tauto.
  - right. eexists. split; [reflexivity|]. cbn.
    rewrite Hct in Hsrc. injection Hsrc as <-.
    rewrite Hct. repeat split; auto; discriminate.
Qed.

Lemma news_item_of_inv ent (upd : update) (item : NewsItem.t) :
  news_item_of ent upd = Return (Some item) ->
  exists m, upd = IsMessage m
    /\ strip (or_empty (Message.message m)) <> []
    /\ NewsItem.id item = py_str (Message.id m)
    /\ NewsItem.text item = strip (or_empty (Message.message m))
    /\ NewsItem.title item
       = title_as_worded (strip (or_empty (Message.message m))).
Proof.
  destruct upd as [m|]; [|discriminate]. intros H. exists m.
  split; [reflexivity|].
  destruct (list_eq_dec N.eq_dec (strip (or_empty (Message.message m))) [])
    as [E|E].
  - rewrite (news_item_of_dropped ent m E) in H. discriminate.
  - destruct (news_item_of_kept ent m E)
      as [[Hr _]|(it & Hit & _ & _ & _ & H1 & H2 & H3 & _)];
      rewrite H in *; [discriminate|].
    injection Hit as <-. auto.
Qed.

(** The loop of [fetch_one]: it raises what the first failing turn
    raises, and else keeps, in order, what [news_item_of] yields. *)
Lemma collect_from_spec ent (msgs : list update) :
  forall out,
  (exists arr,
     collect_from ent msgs out = Return (out ++ arr)
     /\ Forall (fun m => exists r, news_item_of ent m = Return r) msgs
     /\ forall item, In item arr <->
          exists m, In m msgs /\ news_item_of ent m = Return (Some item))
  \/ (exists m e,
        collect_from ent msgs out = Raise e
        /\ In m msgs /\ news_item_of ent m = Raise e).
Proof.
  induction msgs as [|m msgs IH]; intros out.
  - left. exists []. simpl. rewrite app_nil_r.
    split; [reflexivity|]. split; [constructor|].
    intros item. split; [tauto | intros (m & [] & _)].
  - cbn [App.collect_from].
    destruct (news_item_of ent m) as [r|e] eqn:Hm; cbn [bind].
    + destruct (IH (match r with Some item => out ++ [item] | None => out end))
        as [(arr & Hc & Hall & Hin)|(m' & e & Hc & Hm' & He)].
      * left. exists (match r with Some item => item :: arr | None => arr end).
        split; [|split].
        -- rewrite Hc. destruct r; [now rewrite <- app_assoc | reflexivity].
        -- constructor; [eauto | exact Hall].
        -- intros item. destruct r as [it|]; simpl; rewrite Hin; split.
           ++ intros [<-|(m' & Hm' & Hi)]; [exists m; auto | exists m'; auto].
           ++ intros (m' & [<-|Hm'] & Hi);
                [left; congruence | right; exists m'; auto].
           ++ intros (m' & Hm' & Hi). exists m'. auto.
           ++ intros (m' & [<-|Hm'] & Hi); [congruence | exists m'; auto].
      * right. exists m', e. rewrite Hc.
        split; [reflexivity|]. split; [now right | exact He].
    + right. exists m, e. split; [reflexivity|]. split; [now left | exact Hm].
Qed.

Lemma collect_items_In ent (msgs : list update) (arr : list NewsItem.t)
    (item : NewsItem.t) :
  collect_items ent msgs = Return arr ->
  (In item arr <->
   exists m, In m msgs /\ news_item_of ent m = Return (Some item)).
Proof.
  unfold App.collect_items. intros H.
  destruct (collect_from_spec ent msgs [])
    as [(arr' & Hc & _ & Hin)|(m & e & Hc & _)]; rewrite H in Hc;
    [|discriminate].
  cbn [app] in Hc. injection Hc as ->. apply Hin.
Qed.

Lemma collect_items_raises ent (msgs : list update) :
  (exists e, collect_items ent msgs = Raise e) <->
  (exists m e, In m msgs /\ news_item_of ent m = Raise e).
Proof.
  unfold App.collect_items. split.
  - intros [e H].
    destruct (collect_from_spec ent msgs [])
      as [(arr' & Hc & _)|(m & e' & Hc & Hm & He)]; rewrite H in Hc;
      [discriminate|].
    exists m, e'. auto.
  - intros (m & e & Hm & He).
    destruct (collect_from_spec ent msgs [])
      as [(arr' & Hc & Hall & _)|(m' & e' & Hc & _)]; [|eauto].
    destruct (proj1 (Forall_forall _ _) Hall m Hm) as [r Hr]. congruence.
Qed.

End Normalizer.

(** ** The aggregator *)

Lemma dict_set_keys (k v : pystr) (d : dict) (x : pystr) :
  In x (dict_keys (dict_set k v d)) <-> x = k \/ In x (dict_keys d).
Proof.
  unfold dict_keys. induction d as [|[k' v'] d IH]; simpl.
  - intuition.
  - destruct (str_eqb k' k) eqn:E; simpl.
    + apply str_eqb_eq in E. subst k'. intuition.
    + rewrite IH. intuition.
Qed.

Lemma dict_set_Forall (P : pystr * pystr -> Prop) (k v : pystr) (d : dict) :
  P (k, v) -> Forall P d -> Forall P (dict_set k v d).
Proof.
  intros Hkv. induction 1 as [|[k' v'] d Hx Hd IH]; simpl.
  - now constructor.
  - destruct (str_eqb k' k); constructor; auto.
Qed.

Lemma dict_set_nonempty (k v : pystr) (d : dict) : dict_set k v d <> [].
Proof.
  destruct d as [|[k' v'] d]; simpl; [discriminate|].
  destruct (str_eqb k' k); discriminate.
Qed.

Lemma extend_all_concat (fetched : list (list NewsItem.t)) :
  extend_all fetched = concat fetched.
Proof.
  unfold extend_all.
  enough (H : forall acc,
             fold_left (fun results arr => results ++ arr) fetched acc
             = acc ++ concat fetched) by apply (H []).
  induction fetched as [|arr fetched IH]; intros acc; simpl.
  - now rewrite app_nil_r.
  - now rewrite IH, app_assoc.
Qed.

Lemma slice_upto_length {A} (l : list A) (n : Z) :
  0 <= n -> (length (slice_upto l n) <= Z.to_nat n)%nat.
Proof.
  intros Hn. unfold slice_upto.
  destruct (Z.leb_spec 0 n); [apply firstn_le_length | lia].
Qed.

Lemma slice_upto_firstn {A} (l : list A) (n : Z) :
  0 <= n -> slice_upto l n = firstn (Z.to_nat n) l.
Proof.
  intros Hn. unfold slice_upto. destruct (Z.leb_spec 0 n); [reflexivity | lia].
Qed.

Section Properties.
Variable tg_client : Client.
Variable TG_CHANNELS : option pystr.
Variable str_lower : pystr -> pystr.
Variable py_int : pystr -> outcome lib_error Z.
Variable HttpUrl : pystr -> option pystr.

Local Abbreviation resolve_channel := (App.resolve_channel tg_client py_int).
Local Abbreviation news_item_of := (App.news_item_of HttpUrl).
Local Abbreviation collect_items := (App.collect_items HttpUrl).
Local Abbreviation accepted := (App.accepted HttpUrl).
Local Abbreviation fetch_one := (App.fetch_one tg_client py_int HttpUrl).
Local Abbreviation gather := (App.gather tg_client py_int HttpUrl).
Local Abbreviation task_raises := (App.task_raises tg_client py_int HttpUrl).
Local Abbreviation chan_list_of := (App.chan_list_of TG_CHANNELS).
Local Abbreviation get_news :=
  (App.get_news tg_client TG_CHANNELS str_lower py_int HttpUrl).
Local Abbreviation next_offset_of := (App.next_offset_of py_int).
Local Abbreviation sort_results := (App.sort_results str_lower).
Local Abbreviation proxy_media := (App.proxy_media tg_client).
Local Abbreviation recorded := (App.recorded tg_client py_int).

(** Whatever goes wrong in [resolve_channel] comes out as the
    [HTTPException] 400 that names the channel. *)
Lemma resolve_channel_raises (entity : pystr) (ex : exn) :
  resolve_channel entity = Raise ex ->
  exists cause, ex = cannot_resolve entity cause.
Proof.
  unfold resolve_channel.
  destruct (get_entity tg_client (ByName (normalize_identifier entity)))
    as [ent|e]; [discriminate|].
  destruct e;
    try (intros [= <-]; eexists; reflexivity);
    (destruct (n <- py_int (normalize_identifier entity);;
               get_entity tg_client (ById n));
     [discriminate | intros [= <-]; eexists; reflexivity]).
Qed.

(** The three ways a [fetch_one] task can end: a failure to resolve is
    recorded, a fetched and normalized list is returned, or the fetch or
    the construction of an item raises. *)
Lemma fetch_one_cases (limit offset_id : Z) (ch : pystr) (errors : dict) :
  (exists cause,
      resolve_channel ch = Raise (cannot_resolve ch cause)
      /\ fetch_one limit offset_id ch errors
         = (Return [],
            dict_set ch (u "Cannot resolve channel '" ++ ch ++ u "': "
                         ++ error_str cause) errors))
  \/ (exists ent msgs arr,
        resolve_channel ch = Return ent
        /\ get_messages tg_client ent limit offset_id = Return msgs
        /\ collect_items ent msgs = Return arr
        /\ fetch_one limit offset_id ch errors = (Return arr, errors))
  \/ (exists e,
        task_raises limit offset_id ch e
        /\ fetch_one limit offset_id ch errors = (Raise (LibError e), errors)).
Proof.
  unfold App.fetch_one, App.task_raises.
  destruct (resolve_channel ch) as [ent|ex] eqn:Hr.
  - right.
    destruct (get_messages tg_client ent limit offset_id) as [msgs|e] eqn:Hm;
      cbn [call bind].
    + destruct (collect_items ent msgs) as [arr|e] eqn:Hc; cbn [call].
      * left. exists ent, msgs, arr. auto.
      * right. exists e. split; [|reflexivity]. exists ent.
        split; [reflexivity|]. right. exists msgs. auto.
    + right. exists e. split; [|reflexivity]. exists ent. auto.
  - left. destruct (resolve_channel_raises ch ex Hr) as [cause ->].
    exists cause. auto.
Qed.

(** A failure to resolve never leaves the task: it becomes an entry of
    [errors] and an empty result. *)
Lemma fetch_one_resolution_failure limit offset_id ch errors ex :
  resolve_channel ch = Raise ex ->
  exists reason,
    fetch_one limit offset_id ch errors = (Return [], dict_set ch reason errors).
Proof.
  intros Hr.
  destruct (fetch_one_cases limit offset_id ch errors)
    as [(c & _ & H) | [(ent & ? & ? & H & _) | (e & (ent & H & _) & _)]];
    [eauto | congruence | congruence].
Qed.

(** A failure of the fetch itself leaves the task, and nothing is
    recorded. *)
Lemma fetch_one_fetch_failure limit offset_id ch errors ent e :
  resolve_channel ch = Return ent ->
  get_messages tg_client ent limit offset_id = Raise e ->
  fetch_one limit offset_id ch errors = (Raise (LibError e), errors).
Proof.
  intros Hr Hm. unfold fetch_one. now rewrite Hr, Hm.
Qed.

Lemma recorded_mono (chans chans' : list pystr) (kv : pystr * pystr) :
  incl chans chans' -> recorded chans kv -> recorded chans' kv.
Proof. intros Hi [Hin H]. split; [now apply Hi | exact H]. Qed.

(** [gather] over tasks that all return: what was fetched, channel by
    channel, and what [errors] then holds. *)
Lemma gather_returns limit offset_id (chans : list pystr) :
  forall errors fetched errors',
  gather limit offset_id chans errors = (Return fetched, errors') ->
  Forall2
    (fun ch arr =>
       (exists ex, resolve_channel ch = Raise ex) /\ arr = []
       \/ exists ent msgs,
            resolve_channel ch = Return ent
            /\ get_messages tg_client ent limit offset_id = Return msgs
            /\ collect_items ent msgs = Return arr)
    chans fetched
  /\ (forall k, In k (dict_keys errors') <->
                In k (dict_keys errors)
                \/ In k chans /\ exists ex, resolve_channel k = Raise ex)
  /\ (forall requested, incl chans requested ->
        Forall (recorded requested) errors ->
        Forall (recorded requested) errors').
Proof.
  induction chans as [|ch rest IH]; intros errors fetched errors' H.
  - simpl in H. injection H as <- <-. split; [constructor|].
    split; [|auto]. intros k. simpl. intuition.
  - cbn [App.gather] in H.
    destruct (fetch_one_cases limit offset_id ch errors)
      as [(c & Hr & Hf)
         |[(ent & msgs & arr & Hr & Hm & Hc & Hf) | (e & _ & Hf)]];
      rewrite Hf in H; [| |discriminate].
    + destruct (gather limit offset_id rest _) as [[arrs|ex] errors2] eqn:Hg;
        [|discriminate].
      injection H as <- <-.
      destruct (IH _ _ _ Hg) as (Hall & Hkeys & Hrec).
      split; [constructor; [left; eauto | exact Hall]|]. split.
      * intros k. rewrite Hkeys, dict_set_keys. simpl. split.
        -- intros [[->|Hk]|[Hk Hx]]; [right; eauto | now left | right; eauto].
        -- intros [Hk|[[<-|Hk] Hx]]; [left; now right | left; now left | right; eauto].
      * intros requested Hincl Herr.
        apply Hrec; [intros x Hx; apply Hincl; now right|].
        apply dict_set_Forall; [|exact Herr].
        split; [apply Hincl; now left|]. exists c. simpl. auto.
    + destruct (gather limit offset_id rest _) as [[arrs|ex] errors2] eqn:Hg;
        [|discriminate].
      injection H as <- <-.
      destruct (IH _ _ _ Hg) as (Hall & Hkeys & Hrec).
      split; [constructor; [right; eauto | exact Hall]|]. split.
      * intros k. rewrite Hkeys. simpl. split.
        -- intros [Hk|[Hk Hx]]; [now left | right; eauto].
        -- intros [Hk|[[<-|Hk] [ex Hx]]]; [now left | congruence | right; eauto].
      * intros requested Hincl Herr.
        apply Hrec; [intros x Hx; apply Hincl; now right | exact Herr].
Qed.

(** The tasks of [gather] may finish in any order; the keys of [errors]
    do not depend on it. *)
Lemma gather_errors_order_free limit offset_id (chans chans' : list pystr)
    fetched fetched' errors errors' :
  Permutation chans chans' ->
  gather limit offset_id chans [] = (Return fetched, errors) ->
  gather limit offset_id chans' [] = (Return fetched', errors') ->
  forall k, In k (dict_keys errors) <-> In k (dict_keys errors').
Proof.
  intros Hp Hg Hg' k.
  destruct (gather_returns _ _ _ _ _ _ Hg) as (_ & Hk & _).
  destruct (gather_returns _ _ _ _ _ _ Hg') as (_ & Hk' & _).
  rewrite Hk, Hk'. simpl. split; intros [[]|[Hin Hx]]; right; split; auto.
  - now apply (Permutation_in _ Hp).
  - now apply (Permutation_in _ (Permutation_sym Hp)).
Qed.

(** [gather] raises only what some task raises. *)
Lemma gather_raises limit offset_id (chans : list pystr) :
  forall errors ex errors',
  gather limit offset_id chans errors = (Raise ex, errors') ->
  exists ch e,
    In ch chans /\ task_raises limit offset_id ch e /\ ex = LibError e.
Proof.
  induction chans as [|ch rest IH]; intros errors ex errors' H;
    [discriminate|].
  cbn [App.gather] in H.
  destruct (fetch_one_cases limit offset_id ch errors)
    as [(c & Hr & Hf)
       |[(ent & msgs & arr & Hr & Hm & Hc & Hf) | (e & Ht & Hf)]];
    rewrite Hf in H.
  - destruct (gather limit offset_id rest _) as [[arrs|ex'] errors2] eqn:Hg;
      [discriminate|]. injection H as <- <-.
    destruct (IH _ _ _ Hg) as (ch' & e & Hin & ?).
    exists ch', e. split; [now right | assumption].
  - destruct (gather limit offset_id rest _) as [[arrs|ex'] errors2] eqn:Hg;
      [discriminate|]. injection H as <- <-.
    destruct (IH _ _ _ Hg) as (ch' & e & Hin & ?).
    exists ch', e. split; [now right | assumption].
  - injection H as <- <-. exists ch, e. split; [now left | auto].
Qed.

(** Where every channel fails to resolve, no task raises. *)
Lemma gather_all_fail limit offset_id (chans : list pystr) :
  (forall ch, In ch chans -> exists ex, resolve_channel ch = Raise ex) ->
  forall errors, exists errors',
    gather limit offset_id chans errors
    = (Return (map (fun _ => []) chans), errors').
Proof.
  induction chans as [|ch rest IH]; intros Hfail errors.
  - exists errors. reflexivity.
  - destruct (Hfail ch (or_introl eq_refl)) as [ex Hex].
    destruct (fetch_one_resolution_failure limit offset_id ch errors ex Hex)
      as [reason Hf].
    destruct (IH (fun c Hc => Hfail c (or_intror Hc)) (dict_set ch reason errors))
      as [errors' Hg].
    exists errors'. cbn [App.gather]. now rewrite Hf, Hg.
Qed.

(** How [get_news] comes to return: no channel was asked for, or every
    task returned, the page is cut from the sorted merge, and the header
    could be set. *)
Lemma get_news_returns channels limit offset_id sort resp hdr :
  get_news channels limit offset_id sort = Return (resp, hdr) ->
  exists fetched errors,
    gather limit offset_id (chan_list_of channels) [] = (Return fetched, errors)
    /\ NewsList.items resp
       = slice_upto (sort_results sort (concat fetched)) limit
    /\ NewsList.total resp = Z.of_nat (length (NewsList.items resp))
    /\ NewsList.next_offset resp = next_offset_of (NewsList.items resp)
    /\ hdr = errors_header errors
    /\ set_errors_header errors = Return hdr.
Proof.
  unfold App.get_news.
  destruct (chan_list_of channels) as [|c cs] eqn:Hc.
  - intros [= <- <-]. exists [], []. simpl.
    repeat split; try reflexivity.
    assert (Hs : sort_results sort [] = []).
    { unfold App.sort_results.
      destruct (str_eqb sort (u "newest")), (str_eqb sort (u "oldest"));
        reflexivity. }
    rewrite Hs. unfold slice_upto.
    destruct (0 <=? limit); now rewrite firstn_nil.
  - destruct (gather limit offset_id (c :: cs) []) as [[fetched|ex] errors];
      [|discriminate].
    cbn [bind].
    destruct (set_errors_header errors) as [h|e] eqn:Hh; cbn [call bind];
      [|discriminate].
    assert (Hhe : h = errors_header errors).
    { unfold set_errors_header in Hh.
      destruct (errors_header errors) as [value|]; [|congruence].
      unfold encode_latin1 in Hh.
      destruct (latin1 value); cbn [bind] in Hh; congruence. }
    intros [= <- <-]. exists fetched, errors.
    rewrite extend_all_concat. cbn. repeat split; try reflexivity; auto.
Qed.

Lemma get_news_of_gather channels limit offset_id sort fetched errors :
  chan_list_of channels <> [] ->
  gather limit offset_id (chan_list_of channels) [] = (Return fetched, errors) ->
  let page := slice_upto (sort_results sort (concat fetched)) limit in
  get_news channels limit offset_id sort
  = (header <- call (set_errors_header errors) ;;
     Return (NewsList.mk (Z.of_nat (length page)) page (next_offset_of page),
             header)).
Proof.
  intros Hne Hg. cbv zeta. unfold App.get_news.
  destruct (chan_list_of channels) as [|c cs]; [contradiction|].
  rewrite Hg. cbn [bind]. now rewrite extend_all_concat.
Qed.

Lemma get_news_of_gather_raise channels limit offset_id sort ex errors :
  gather limit offset_id (chan_list_of channels) [] = (Raise ex, errors) ->
  get_news channels limit offset_id sort = Raise ex.
Proof.
  intros Hg. unfold App.get_news.
  destruct (chan_list_of channels) as [|c cs]; [discriminate|].
  now rewrite Hg.
Qed.

Lemma sort_results_nil sort : sort_results sort [] = [].
Proof.
  unfold App.sort_results.
  destruct (str_eqb sort (u "newest")), (str_eqb sort (u "oldest"));
    reflexivity.
Qed.

Lemma slice_upto_nil {A} (n : Z) : slice_upto (@nil A) n = [].
Proof. unfold slice_upto. destruct (0 <=? n); now rewrite firstn_nil. Qed.

Lemma concat_all_nil {A B} (l : list A) :
  concat (map (fun _ => @nil B) l) = [].
Proof. induction l; simpl; auto. Qed.

Lemma str_join_nonempty (sep p : pystr) (ps : list pystr) :
  p <> [] -> str_join sep (p :: ps) <> [].
Proof.
  intros Hp. simpl. destruct ps; [exact Hp|].
  destruct p; [contradiction | discriminate].
Qed.

Lemma errors_header_some (errors : dict) :
  errors <> [] ->
  exists h,
    errors_header errors = Some h /\ h <> []
    /\ h = str_join (u "; ") (map (fun kv => fst kv ++ u ":" ++ snd kv) errors).
Proof.
  intros Hne. destruct errors as [|[k v] errors]; [contradiction|].
  eexists. split; [reflexivity|]. split; [|reflexivity].
  cbn [map]. apply str_join_nonempty. cbn [fst snd].
  intros H. apply app_eq_nil in H as [_ H]. discriminate.
Qed.

Lemma errors_header_none (errors : dict) :
  errors_header errors = None <-> errors = [].
Proof. destruct errors; simpl; split; congruence. Qed.

Lemma latin1_app (a b : pystr) : latin1 (a ++ b) = latin1 a && latin1 b.
Proof. apply forallb_app. Qed.

Lemma latin1_join (sep : pystr) (parts : list pystr) :
  latin1 sep = true -> Forall (fun p => latin1 p = true) parts ->
  latin1 (str_join sep parts) = true.
Proof.
  intros Hsep. induction 1 as [|p ps Hp Hps IH]; [reflexivity|].
  destruct ps as [|q ps]; [exact Hp|].
  change (str_join sep (p :: q :: ps)) with (p ++ sep ++ str_join sep (q :: ps)).
  now rewrite !latin1_app, Hp, Hsep, IH.
Qed.

Lemma latin1_join_false (sep : pystr) (parts : list pystr) (p : pystr) :
  In p parts -> latin1 p = false -> latin1 (str_join sep parts) = false.
Proof.
  intros Hin Hp. induction parts as [|q ps IH]; [destruct Hin|].
  destruct ps as [|r ps].
  - destruct Hin as [->|[]]. exact Hp.
  - change (str_join sep (q :: r :: ps)) with (q ++ sep ++ str_join sep (r :: ps)).
    rewrite !latin1_app. destruct Hin as [->|Hin].
    + now rewrite Hp.
    + rewrite (IH Hin). now rewrite !andb_false_r.
Qed.

Lemma errors_header_not_latin1 (errors : dict) (k : pystr) :
  In k (dict_keys errors) -> latin1 k = false ->
  exists value, errors_header errors = Some value /\ latin1 value = false.
Proof.
  intros Hin Hk. unfold dict_keys in Hin.
  apply in_map_iff in Hin as ([k' v] & <- & Hin).
  destruct errors as [|kv errors]; [destruct Hin|].
  eexists. split; [reflexivity|].
  apply (latin1_join_false _ _ (k' ++ u ":" ++ v)).
  - apply (in_map (fun kv => fst kv ++ u ":" ++ snd kv) _ (k', v) Hin).
  - rewrite latin1_app. cbn [fst] in Hk. now rewrite Hk.
Qed.

Lemma cannot_resolve_cause (entity : pystr) (c c' : lib_error) :
  cannot_resolve entity c = cannot_resolve entity c' ->
  error_str c = error_str c'.
Proof.
  unfold cannot_resolve. intros H.
  assert (Hd : forall s d d', HTTPException s d = HTTPException s d' -> d = d')
    by (intros ? ? ? E; now inversion E).
  apply Hd in H. now do 3 apply app_inv_head in H.
Qed.

(** X20.  Where every channel fails to resolve and the names and the texts
    of the causes are Latin-1, the request is answered with status 200,
    [items = []], [total = 0], and a non-empty [X-TG-Errors] value that
    joins one [name:reason] per failing channel with ["; "] and names
    every one of them.  And whenever [get_news] returns, the header is set
    exactly when some requested channel failed, to the entries of [errors]
    joined in that format, each entry being a requested channel that
    failed with the reason of its failure. *)
Theorem all_channels_fail_header channels limit offset_id sort :
  (chan_list_of channels <> [] ->
   (forall ch, In ch (chan_list_of channels) ->
               latin1 ch = true
               /\ exists cause,
                    resolve_channel ch = Raise (cannot_resolve ch cause)
                    /\ latin1 (error_str cause) = true) ->
   exists errors h,
     get_news channels limit offset_id sort
     = Return (NewsList.mk 0 [] None, Some h)
     /\ http_status (get_news channels limit offset_id sort) = 200
     /\ h <> []
     /\ h = str_join (u "; ")
              (map (fun kv => fst kv ++ u ":" ++ snd kv) errors)
     /\ (forall ch, In ch (chan_list_of channels) -> In ch (dict_keys errors))
     /\ Forall (recorded (chan_list_of channels)) errors)
  /\ (forall resp hdr,
        get_news channels limit offset_id sort = Return (resp, hdr) ->
        exists errors,
          hdr = errors_header errors
          /\ (hdr <> None <->
              exists ch, In ch (chan_list_of channels)
                         /\ exists ex, resolve_channel ch = Raise ex)
          /\ Forall (recorded (chan_list_of channels)) errors
          /\ (forall h, hdr = Some h ->
                h <> []
                /\ h = str_join (u "; ")
                         (map (fun kv => fst kv ++ u ":" ++ snd kv) errors))).
Proof.
  split.
  - intros Hne Hlat.
    assert (Hfail : forall ch, In ch (chan_list_of channels) ->
                               exists ex, resolve_channel ch = Raise ex).
    { intros ch Hch. destruct (Hlat ch Hch) as (_ & cause & Hr & _). eauto. }
    destruct (gather_all_fail limit offset_id _ Hfail []) as [errors Hg].
    pose proof (get_news_of_gather channels limit offset_id sort _ _ Hne Hg)
      as Hn. cbv zeta in Hn.
    rewrite concat_all_nil, sort_results_nil, slice_upto_nil in Hn.
    destruct (gather_returns _ _ _ _ _ _ Hg) as (_ & Hkeys & Hrec).
    assert (Hall : forall ch, In ch (chan_list_of channels) ->
                              In ch (dict_keys errors)).
    { intros ch Hch. apply Hkeys. right. split; [exact Hch | now apply Hfail]. }
    assert (Herr : errors <> []).
    { destruct (chan_list_of channels) as [|c cs]; [contradiction|].
      intros ->. exact (Hall c (or_introl eq_refl)). }
    assert (Hrecd : Forall (recorded (chan_list_of channels)) errors)
      by (apply Hrec; [apply incl_refl | constructor]).
    destruct (errors_header_some errors Herr) as (h & Hh & Hh1 & Hh2).
    assert (Henc : latin1 h = true).
    { rewrite Hh2. apply latin1_join; [reflexivity|].
      apply Forall_forall. intros part Hpart.
      apply in_map_iff in Hpart as ([k v] & <- & Hkv). cbn [fst snd].
      destruct (proj1 (Forall_forall _ _) Hrecd _ Hkv)
        as (Hk & cause & Hr & Hv). cbn [fst snd] in *.
      destruct (Hlat k Hk) as (Hlk & cause' & Hr' & Hlc).
      assert (Hc : error_str cause = error_str cause').
      { apply (cannot_resolve_cause k). congruence. }
      rewrite Hv, Hc, !latin1_app, Hlk, Hlc. reflexivity. }
    assert (Hset : set_errors_header errors = Return (Some h)).
    { unfold set_errors_header, encode_latin1. now rewrite Hh, Henc. }
    rewrite Hset in Hn. cbn in Hn.
    exists errors, h. rewrite Hn.
    repeat split; auto.
  - intros resp hdr Hn.
    destruct (get_news_returns _ _ _ _ _ _ Hn)
      as (fetched & errors & Hg & _ & _ & _ & -> & _).
    destruct (gather_returns _ _ _ _ _ _ Hg) as (_ & Hkeys & Hrec).
    exists errors. split; [reflexivity|]. split; [|split].
    + split.
      * intros Hh. destruct errors as [|[k v] errors]; [now elim Hh|].
        destruct (proj1 (Hkeys k) (or_introl eq_refl)) as [[]|[Hk Hx]].
        eauto.
      * intros (ch & Hch & Hx) Hh. apply errors_header_none in Hh. subst.
        apply (proj2 (Hkeys ch)). right. auto.
    + apply Hrec; [apply incl_refl | constructor].
    + intros h Hh.
      assert (Herr : errors <> []) by (intros ->; discriminate).
      destruct (errors_header_some errors Herr) as (h' & Hh' & H1 & H2).
      rewrite Hh' in Hh. injection Hh as <-. auto.
Qed.

(** C7.  With [limit] in 1..200, [total] is the number of items, which is
    at most [limit], and the items are the first [limit] of the sorted
    merge of everything the channels returned: [limit] caps the whole
    page, not each channel. *)
Theorem total_and_limit channels limit offset_id sort resp hdr :
  1 <= limit <= 200 ->
  get_news channels limit offset_id sort = Return (resp, hdr) ->
  NewsList.total resp = Z.of_nat (length (NewsList.items resp))
  /\ Z.of_nat (length (NewsList.items resp)) <= limit
  /\ exists fetched errors,
       gather limit offset_id (chan_list_of channels) []
       = (Return fetched, errors)
       /\ NewsList.items resp
          = firstn (Z.to_nat limit) (sort_results sort (concat fetched)).
Proof.
  intros Hl Hn.
  destruct (get_news_returns _ _ _ _ _ _ Hn)
    as (fetched & errors & Hg & Hi & Ht & _ & _).
  split; [exact Ht|]. split.
  - rewrite Hi.
    pose proof (slice_upto_length (sort_results sort (concat fetched)) limit).
    lia.
  - exists fetched, errors. split; [exact Hg|].
    rewrite Hi. apply slice_upto_firstn. lia.
Qed.

(** ** Order of the page *)

Lemma sort_results_perm sort (l : list NewsItem.t) :
  Permutation (sort_results sort l) l.
Proof.
  unfold App.sort_results.
  destruct (str_eqb sort (u "newest")); [apply list_sort_perm|].
  destruct (str_eqb sort (u "oldest")); apply list_sort_perm.
Qed.

(** C4.  The returned items are in the order of the sort mode: for
    [newest], [publishedAt] never increases along the page; for [oldest]
    it never decreases; for [source], the lower-cased [source] never
    increases and, between two items whose sources are equal up to case
    (so also between two of the same source), [publishedAt] never
    increases. *)
Theorem page_sorted channels limit offset_id sort resp hdr :
  get_news channels limit offset_id sort = Return (resp, hdr) ->
  (sort = u "newest" ->
   StronglySorted
     (fun a b => NewsItem.publishedAt b <= NewsItem.publishedAt a)
     (NewsList.items resp))
  /\ (sort = u "oldest" ->
      StronglySorted
        (fun a b => NewsItem.publishedAt a <= NewsItem.publishedAt b)
        (NewsList.items resp))
  /\ (sort = u "source" ->
      StronglySorted
        (fun a b =>
           str_leb (str_lower (NewsItem.source b))
                   (str_lower (NewsItem.source a)) = true
           /\ (str_lower (NewsItem.source a) = str_lower (NewsItem.source b) ->
               NewsItem.publishedAt b <= NewsItem.publishedAt a))
        (NewsList.items resp)).
Proof.
  intros Hn.
  destruct (get_news_returns _ _ _ _ _ _ Hn)
    as (fetched & errors & _ & -> & _).
  split; [|split]; intros ->; apply StronglySorted_slice;
    unfold App.sort_results.
  - change (str_eqb (u "newest") (u "newest")) with true. cbv iota.
    eapply StronglySorted_impl;
      [|apply list_sort_descending; [apply Zltb_asym | apply Zleb_trans]].
    unfold not_before. intros a b H. lia.
  - change (str_eqb (u "oldest") (u "newest")) with false.
    change (str_eqb (u "oldest") (u "oldest")) with true. cbv iota.
    eapply StronglySorted_impl;
      [|apply list_sort_ascending; [apply Zltb_asym | apply Zleb_trans]].
    unfold not_after. intros a b H. lia.
  - change (str_eqb (u "source") (u "newest")) with false.
    change (str_eqb (u "source") (u "oldest")) with false. cbv iota.
    eapply StronglySorted_impl;
      [|apply list_sort_descending;
        [apply tuple_ltb_asym | apply tuple_leb_trans]].
    unfold not_before, tuple_ltb, str_leb. cbn [fst snd]. intros a b H.
    destruct (str_eqb (str_lower (NewsItem.source a))
                (str_lower (NewsItem.source b))) eqn:E.
    + apply str_eqb_eq in E. rewrite E, str_ltb_irrefl. split; [reflexivity|].
      intros _. lia.
    + rewrite H. split; [reflexivity|]. intros E'.
      apply str_eqb_neq in E. contradiction.
Qed.

(** ** The pagination cursor *)

Lemma min_from_returns (ids : list pystr) :
  forall cur z,
  min_from py_int cur ids = Return z ->
  exists vs,
    Forall2 (fun s v => py_int s = Return v) ids vs
    /\ z <= cur /\ Forall (Z.le z) vs /\ (z = cur \/ In z vs).
Proof.
  induction ids as [|s ids IH]; intros cur z H; simpl in H.
  - injection H as <-. exists []. repeat split; auto; lia.
  - destruct (py_int s) as [v|e] eqn:Hs; [|discriminate]. cbn [bind] in H.
    destruct (IH _ _ H) as (vs & Hvs & Hle & Hall & Hin).
    exists (v :: vs). split; [now constructor|].
    destruct (Z.ltb_spec v cur).
    + repeat split; [lia | constructor; [lia | exact Hall]|].
      destruct Hin as [->|Hin]; right; [now left | now right].
    + repeat split; [lia | constructor; [lia | exact Hall]|].
      destruct Hin as [->|Hin]; [now left | right; now right].
Qed.

Lemma min_from_raises (ids : list pystr) :
  forall cur,
  (exists e, min_from py_int cur ids = Raise e) <->
  (exists s e, In s ids /\ py_int s = Raise e).
Proof.
  induction ids as [|s ids IH]; intros cur; simpl.
  - split; [intros [e H]; discriminate | intros (s & e & [] & _)].
  - destruct (py_int s) as [v|e] eqn:Hs; cbn [bind].
    + rewrite IH. split.
      * intros (s' & e & Hin & H). exists s', e. auto.
      * intros (s' & e & [<-|Hin] & H); [congruence|]. exists s', e. auto.
    + split; [|eauto]. intros _. exists s, e. auto.
Qed.

Lemma Forall2_map_left {A B C} (f : A -> B) (R : B -> C -> Prop)
    (l : list A) (l' : list C) :
  Forall2 R (map f l) l' -> Forall2 (fun a c => R (f a) c) l l'.
Proof.
  revert l'. induction l as [|a l IH]; intros l' H; inversion H; subst;
    constructor; auto.
Qed.

(** Lines 193-198 on any page: the cursor is the least of the parsed ids;
    it is missing exactly for an empty page or an id that does not
    parse. *)
Lemma next_offset_of_spec (page : list NewsItem.t) :
  (forall z, next_offset_of page = Some z ->
     exists vs,
       Forall2 (fun it v => py_int (NewsItem.id it) = Return v) page vs
       /\ In z vs /\ Forall (Z.le z) vs)
  /\ (next_offset_of page = None <->
      page = []
      \/ exists it e, In it page /\ py_int (NewsItem.id it) = Raise e).
Proof.
  destruct page as [|it page].
  - split; [discriminate|]. simpl. intuition.
  - unfold App.next_offset_of, py_min_int. cbn [map]. split.
    + intros z H.
      destruct (py_int (NewsItem.id it)) as [v|e] eqn:Hv; [|discriminate].
      cbn [bind] in H.
      destruct (min_from py_int v (map NewsItem.id page)) as [z'|e] eqn:Hm;
        [|discriminate].
      injection H as ->.
      destruct (min_from_returns _ _ _ Hm) as (vs & Hvs & Hle & Hall & Hin).
      exists (v :: vs). split; [|split].
      * constructor; [exact Hv|].
        exact (Forall2_map_left NewsItem.id
                 (fun s v => py_int s = Return v) _ _ Hvs).
      * destruct Hin as [->|Hin]; [now left | now right].
      * constructor; [exact Hle | exact Hall].
    + destruct (py_int (NewsItem.id it)) as [v|e] eqn:Hv; cbn [bind].
      * destruct (min_from py_int v (map NewsItem.id page)) as [z'|e] eqn:Hm.
        -- split; [discriminate|]. intros [H|(it' & e & [<-|Hin] & H)];
             [discriminate | congruence |].
           assert (Hex : exists e', min_from py_int v (map NewsItem.id page)
                                    = Raise e').
           { apply min_from_raises. exists (NewsItem.id it'), e.
             split; [now apply in_map | exact H]. }
           destruct Hex as [e' He']. congruence.
        -- split; [|reflexivity]. intros _. right.
           destruct (proj1 (min_from_raises _ v) (ex_intro _ e Hm))
             as (s & e' & Hin & Hs).
           apply in_map_iff in Hin as (it' & <- & Hin).
           exists it', e'. split; [now right | exact Hs].
      * split; [|reflexivity]. intros _. right. exists it, e.
        split; [now left | exact Hv].
Qed.

(** C6.  On every page [get_news] returns, [next_offset], when present,
    is the least of the integers the items' ids parse to (every id
    parses, the value is one of them and none is smaller); it is absent
    exactly when the page is empty or some id does not parse. *)
Theorem next_offset_is_min channels limit offset_id sort resp hdr :
  get_news channels limit offset_id sort = Return (resp, hdr) ->
  (forall z, NewsList.next_offset resp = Some z ->
     exists vs,
       Forall2 (fun it v => py_int (NewsItem.id it) = Return v)
         (NewsList.items resp) vs
       /\ In z vs /\ Forall (Z.le z) vs)
  /\ (NewsList.next_offset resp = None <->
      NewsList.items resp = []
      \/ exists it e, In it (NewsList.items resp)
                      /\ py_int (NewsItem.id it) = Raise e).
Proof.
  intros Hn.
  destruct (get_news_returns _ _ _ _ _ _ Hn) as (_ & _ & _ & _ & _ & -> & _).
  apply next_offset_of_spec.
Qed.

(** ** Where the returned items come from *)

Lemma Forall2_In_right {A B} (R : A -> B -> Prop) (l : list A) (l' : list B)
    (y : B) :
  Forall2 R l l' -> In y l' -> exists x, In x l /\ R x y.
Proof.
  induction 1 as [|a b l l' Hab _ IH]; intros Hin; [contradiction|].
  destruct Hin as [<-|Hin].
  - exists a. split; [now left | exact Hab].
  - destruct (IH Hin) as (x & Hx & Hr). exists x. split; [now right | exact Hr].
Qed.

(** Every returned item is what [news_item_of] made of a message that a
    requested, resolved channel returned. *)
Lemma get_news_item_origin channels limit offset_id sort resp hdr item :
  get_news channels limit offset_id sort = Return (resp, hdr) ->
  In item (NewsList.items resp) ->
  exists ch ent msgs m,
    In ch (chan_list_of channels)
    /\ resolve_channel ch = Return ent
    /\ get_messages tg_client ent limit offset_id = Return msgs
    /\ In (IsMessage m) msgs
    /\ news_item_of ent (IsMessage m) = Return (Some item).
Proof.
  intros Hn Hin.
  destruct (get_news_returns _ _ _ _ _ _ Hn)
    as (fetched & errors & Hg & Hi & _).
  rewrite Hi in Hin. apply slice_upto_In in Hin.
  apply (Permutation_in _ (sort_results_perm sort _)) in Hin.
  apply in_concat in Hin as (arr & Harr & Hin).
  destruct (gather_returns _ _ _ _ _ _ Hg) as (Hall & _).
  destruct (Forall2_In_right _ _ _ _ Hall Harr)
    as (ch & Hch & [[_ ->] | (ent & msgs & Hr & Hm & Hc)]); [contradiction|].
  apply (collect_items_In _ _ _ _ _ Hc) in Hin as (upd & Hupd & Hit).
  destruct (news_item_of_inv _ _ _ _ Hit) as (m & -> & _).
  exists ch, ent, msgs, m. auto.
Qed.

(** C5.  A message whose body is empty once stripped is dropped by the
    normalizer, without an error.  A message whose stripped body is not
    empty is never dropped: the normalizer makes an item of it, or the
    construction of the item raises [ValidationError] (the entity has no
    name that is a string, or a URL is not accepted), and it makes an item
    exactly when those fields are valid.  The item's [text] is the stripped
    body and its [title] is the body's part before the first newline, cut
    to 120 characters, with ["Post"] in place of an empty title.  The loop
    of [fetch_one], when it returns, returns exactly the items so made, so
    every item [get_news] returns has a non-empty [text], the stripped body
    of a fetched message, and the title so derived. *)
Theorem normalizer_title_and_drop :
  (forall ent m,
     strip (or_empty (Message.message m)) = [] ->
     news_item_of ent (IsMessage m) = Return None)
  /\ (forall ent m,
        strip (or_empty (Message.message m)) <> [] ->
        news_item_of ent (IsMessage m) <> Return None
        /\ (forall item,
              news_item_of ent (IsMessage m) = Return (Some item) ->
              NewsItem.text item = strip (or_empty (Message.message m))
              /\ NewsItem.title item
                 = title_as_worded (strip (or_empty (Message.message m))))
        /\ ((exists item, news_item_of ent (IsMessage m) = Return (Some item))
            <-> chan_title_of ent <> None
                /\ accepted (link_of (Entity.username ent)) = true
                /\ accepted (snd (pick_title_and_url m)) = true)
        /\ ((exists item, news_item_of ent (IsMessage m) = Return (Some item))
            \/ news_item_of ent (IsMessage m) = Raise ValidationError))
  /\ (forall ent msgs arr item,
        collect_items ent msgs = Return arr ->
        (In item arr <->
         exists upd, In upd msgs
                     /\ news_item_of ent upd = Return (Some item)))
  /\ (forall channels limit offset_id sort resp hdr item,
        get_news channels limit offset_id sort = Return (resp, hdr) ->
        In item (NewsList.items resp) ->
        NewsItem.text item <> []
        /\ NewsItem.title item = title_as_worded (NewsItem.text item)
        /\ exists m, NewsItem.text item = strip (or_empty (Message.message m))).
Proof.
  split; [exact (news_item_of_dropped HttpUrl)|]. split; [|split].
  - intros ent m H.
    destruct (news_item_of_kept HttpUrl ent m H)
      as [[Hr Hw]
         |(item & Hit & Hct & Ha & Hb & _ & Ht & Hti & _)].
    + rewrite Hr. split; [discriminate|]. split; [discriminate|].
      split; [|now right]. split; [intros [item Hi]; discriminate|].
      intros (Hct & Ha & Hb). exfalso.
      destruct Hw as [Hw|[Hw|Hw]]; congruence.
    + rewrite Hit. split; [discriminate|]. split.
      * intros item' [= <-]. auto.
      * split; [|left; eauto]. split; [auto | eauto].
  - intros ent msgs arr item. apply collect_items_In.
  - intros channels limit offset_id sort resp hdr item Hn Hin.
    destruct (get_news_item_origin _ _ _ _ _ _ _ Hn Hin)
      as (ch & ent & msgs & m & _ & _ & _ & _ & Hit).
    destruct (news_item_of_inv _ _ _ _ Hit)
      as (m' & [= <-] & Hne & _ & Ht & Hti).
    rewrite Ht. split; [exact Hne|]. split; [exact Hti|]. now exists m.
Qed.

(** C10.  The ids of a page are the decimal numerals [str] printed, which
    [int] reads back; so a non-empty page always carries a
    [next_offset]. *)
Theorem next_offset_present channels limit offset_id sort resp hdr :
  (forall n, py_int (py_str n) = Return n) ->
  get_news channels limit offset_id sort = Return (resp, hdr) ->
  NewsList.items resp <> [] ->
  exists z, NewsList.next_offset resp = Some z.
Proof.
  intros Hround Hn Hne.
  destruct (NewsList.next_offset resp) as [z|] eqn:Hz; [now exists z|].
  exfalso.
  destruct (get_news_returns _ _ _ _ _ _ Hn) as (_ & _ & _ & _ & _ & Ho & _).
  rewrite Ho in Hz.
  apply (proj2 (next_offset_of_spec _)) in Hz
    as [Hz | (it & e & Hin & He)]; [contradiction|].
  destruct (get_news_item_origin _ _ _ _ _ _ _ Hn Hin)
    as (ch & ent & msgs & m & _ & _ & _ & _ & Hit).
  destruct (news_item_of_inv _ _ _ _ Hit) as (m' & _ & _ & Hid & _).
  rewrite Hid, Hround in He. discriminate.
Qed.

(** ** The media proxy *)

Lemma declared_mime_some (d : option Document.t) (mime : pystr) :
  declared_mime d = Some mime <-> declares d mime.
Proof.
  unfold declared_mime, declares. split.
  - destruct d as [doc|]; [|discriminate].
    destruct (Document.mime_type doc) as [m|] eqn:Hm; [|discriminate].
    destruct (truthy m) eqn:Ht; [|discriminate].
    intros [= <-]. exists doc. apply truthy_true in Ht. auto.
  - intros (doc & -> & -> & Hne). apply truthy_true in Hne. now rewrite Hne.
Qed.

Lemma declared_mime_none (d : option Document.t) :
  declared_mime d = None <-> declares_nothing d.
Proof.
  unfold declares_nothing. split.
  - intros H mime Hd. apply declared_mime_some in Hd. congruence.
  - intros H. destruct (declared_mime d) as [m|] eqn:Hm; [|reflexivity].
    apply declared_mime_some in Hm. now apply H in Hm.
Qed.

Lemma has_attachment_false (m : Message.t) :
  is_some (Message.photo m) || is_some (Message.video m)
  || is_some (Message.document m) = false <-> no_attachment m.
Proof.
  unfold no_attachment.
  destruct (Message.photo m), (Message.video m), (Message.document m);
    simpl; intuition congruence.
Qed.


(** C9.  The media type of a served message: the video's declared mime
    type when there is one; else the document's; else [image/jpeg] when
    the message has a photo, whatever mime metadata is missing; else
    [application/octet-stream].  It is the media type of every answer of
    [proxy_media]. *)
Theorem media_type_precedence :
  (forall m,
     (forall mime, declares (Message.video m) mime -> media_type_of m = mime)
     /\ (declares_nothing (Message.video m) ->
         forall mime, declares (Message.document m) mime ->
                      media_type_of m = mime)
     /\ (declares_nothing (Message.video m) ->
         declares_nothing (Message.document m) ->
         Message.photo m <> None -> media_type_of m = u "image/jpeg")
     /\ (declares_nothing (Message.video m) ->
         declares_nothing (Message.document m) ->
         Message.photo m = None ->
         media_type_of m = u "application/octet-stream"))
  /\ (forall channel_id message_id buf content_type,
        proxy_media channel_id message_id = Return (buf, content_type) ->
        exists ent m,
          get_entity tg_client (ById channel_id) = Return ent
          /\ get_message tg_client ent message_id = Return (Some m)
          /\ download_media tg_client m = Return buf
          /\ content_type = media_type_of m).
Proof.
  split.
  - intros m. unfold media_type_of. repeat split.
    + intros mime H. apply declared_mime_some in H. now rewrite H.
    + intros Hv mime H. apply declared_mime_none in Hv.
      apply declared_mime_some in H. now rewrite Hv, H.
    + intros Hv Hd Hp. apply declared_mime_none in Hv, Hd. rewrite Hv, Hd.
      destruct (Message.photo m); [reflexivity | contradiction].
    + intros Hv Hd Hp. apply declared_mime_none in Hv, Hd.
      now rewrite Hv, Hd, Hp.
  - intros channel_id message_id buf ct. unfold App.proxy_media.
    destruct (get_entity tg_client (ById channel_id)) as [ent|e] eqn:He;
      [|discriminate]. cbn [call bind].
    destruct (get_message tg_client ent message_id) as [[m|]|e] eqn:Hm;
      try discriminate. cbn [call bind].
    destruct (negb _); [discriminate|].
    destruct (download_media tg_client m) as [b|e] eqn:Hd; [|discriminate].
    cbn [call bind]. intros [= <- <-]. exists ent, m. auto.
Qed.

(** A task that raises is not caught: the exception leaves [gather],
    whatever the other channels did. *)
Lemma gather_task_failure limit offset_id (chans : list pystr) ch e :
  In ch chans ->
  task_raises limit offset_id ch e ->
  forall errors, exists e' errors',
    gather limit offset_id chans errors = (Raise (LibError e'), errors').
Proof.
  induction chans as [|c rest IH]; intros Hin Ht errors; [contradiction|].
  cbn [App.gather].
  assert (Hclash : forall ent msgs arr,
            c = ch -> resolve_channel c = Return ent ->
            get_messages tg_client ent limit offset_id = Return msgs ->
            collect_items ent msgs = Return arr -> False).
  { intros ent msgs arr -> Hr Hm Hc.
    destruct Ht as (ent' & Hr' & [Hm'|(msgs' & Hm' & Hc')]); congruence. }
  destruct (fetch_one_cases limit offset_id c errors)
    as [(cause & Hr' & Hf)
       |[(ent' & msgs & arr & Hr' & Hm' & Hc' & Hf) | (e0 & _ & Hf)]];
    rewrite Hf.
  - destruct Hin as [->|Hin];
      [destruct Ht as (ent & Hr & _); congruence|].
    destruct (IH Hin Ht (dict_set c
                (u "Cannot resolve channel '" ++ c ++ u "': "
                 ++ error_str cause) errors)) as (e' & errors' & ->).
    eauto.
  - destruct Hin as [->|Hin]; [exfalso; eapply Hclash; eauto|].
    destruct (IH Hin Ht errors) as (e' & errors' & ->). eauto.
  - eauto.
Qed.

(** A fetch that raises is not caught: the exception leaves [gather] and
    [get_news], whatever the other channels did. *)
Lemma gather_fetch_failure limit offset_id (chans : list pystr) ch ent e :
  In ch chans ->
  resolve_channel ch = Return ent ->
  get_messages tg_client ent limit offset_id = Raise e ->
  forall errors, exists e' errors',
    gather limit offset_id chans errors = (Raise (LibError e'), errors').
Proof.
  intros Hin Hr Hm. apply (gather_task_failure _ _ _ ch e Hin).
  exists ent. auto.
Qed.

Lemma get_news_fetch_failure channels limit offset_id sort ch ent e :
  In ch (chan_list_of channels) ->
  resolve_channel ch = Return ent ->
  get_messages tg_client ent limit offset_id = Raise e ->
  exists e',
    get_news channels limit offset_id sort = Raise (LibError e')
    /\ http_status (get_news channels limit offset_id sort) = 500.
Proof.
  intros Hin Hr Hm.
  destruct (gather_fetch_failure limit offset_id _ ch ent e Hin Hr Hm [])
    as (e' & errors' & Hg).
  exists e'. rewrite (get_news_of_gather_raise _ _ _ sort _ _ Hg).
  split; reflexivity.
Qed.

(** A failing channel whose name is not Latin-1 makes the header value
    unencodable: whatever the other channels do, the request ends in
    status 500. *)
Lemma get_news_header_failure channels limit offset_id sort ch :
  In ch (chan_list_of channels) ->
  (exists ex, resolve_channel ch = Raise ex) ->
  latin1 ch = false ->
  exists e,
    get_news channels limit offset_id sort = Raise (LibError e)
    /\ http_status (get_news channels limit offset_id sort) = 500.
Proof.
  intros Hin Hr Hl.
  destruct (gather limit offset_id (chan_list_of channels) [])
    as [[fetched|ex] errors] eqn:Hg.
  - assert (Hne : chan_list_of channels <> [])
      by (intros E; rewrite E in Hin; destruct Hin).
    assert (Hk : In ch (dict_keys errors)).
    { destruct (gather_returns _ _ _ _ _ _ Hg) as (_ & Hk & _).
      apply Hk. right. split; [exact Hin | exact Hr]. }
    destruct (errors_header_not_latin1 errors ch Hk Hl) as (value & Hv & Hlv).
    rewrite (get_news_of_gather _ _ _ sort _ _ Hne Hg).
    unfold set_errors_header, encode_latin1. rewrite Hv, Hlv.
    eexists. split; reflexivity.
  - destruct (gather_raises _ _ _ _ _ _ Hg) as (c & e & _ & _ & ->).
    exists e. rewrite (get_news_of_gather_raise _ _ _ sort _ _ Hg).
    split; reflexivity.
Qed.

End Properties.

(** ** The handlers at work on the sample client *)

(** The stand-in for [int] reads back what [str] prints. *)
Lemma demo_int_str (n : Z) : Demo.int (py_str n) = Return n.
Proof.
  unfold Demo.int, py_str, u.
  set (s := NilZero.string_of_int (Z.to_int n)).
  assert (Hb : forallb (fun c => (c <? 256)%N)
                 (map N_of_ascii (list_ascii_of_string s)) = true).
  { apply forallb_forall. intros c Hc.
    apply in_map_iff in Hc as (a & <- & _).
    apply N.ltb_lt, N_ascii_bounded. }
  rewrite Hb, map_map.
  rewrite (map_ext _ (fun a => a)) by (intros a; apply ascii_N_embedding).
  rewrite map_id, string_of_list_ascii_of_string.
  subst s. rewrite NilZero.isi.
  - now rewrite DecimalZ.of_to.
  - destruct n; simpl; try discriminate.
    intros [= H]. now apply DecimalPos.Unsigned.to_uint_nonnil in H.
  - destruct n; simpl; try discriminate.
    intros [= H]. now apply DecimalPos.Unsigned.to_uint_nonnil in H.
Qed.

(** The scenarios of section 8 of the specification. *)
Example scenario_hello_world :
  exists item,
    Demo.get_news (Some (u "validchan")) 2 0 (u "newest")
    = Return (NewsList.mk 1 [item] (Some 10), None)
    /\ NewsItem.title item = u "Hello"
    /\ NewsItem.text item = u "Hello
world".
Proof. eexists. split; [vm_compute; reflexivity|]. split; reflexivity. Qed.

Example scenario_limit_one :
  exists item,
    Demo.get_news (Some (u "validchan")) 1 0 (u "newest")
    = Return (NewsList.mk 1 [item] (Some 10), None)
    /\ NewsItem.id item = u "10".
Proof. eexists. split; [vm_compute; reflexivity|]. reflexivity. Qed.

Example scenario_photo_only :
  Demo.proxy_media 1001 8
  = Return ([Byte.xff; Byte.xd8; Byte.xff], u "image/jpeg").
Proof. reflexivity. Qed.

Example scenario_missing_message :
  http_status (Demo.proxy_media 1001 99) = 404.
Proof. reflexivity. Qed.

(** C1.  The channel [flooded] resolves, but fetching its messages
    raises.  The task [fetch_one] lets the exception out without an entry
    in [errors], [gather] raises it, and the request for [validchan] and
    [flooded] ends in status 500 instead of the items of [validchan] and
    an [X-TG-Errors] entry for [flooded]. *)
Theorem fetch_failure_aborts_request :
  resolve_channel Demo.client Demo.int (u "flooded") = Return Demo.flooded
  /\ fetch_one Demo.client Demo.int Demo.http_url 10 0 (u "flooded") []
     = (Raise (LibError (OtherError (u "FloodWaitError")
                           (u "A wait of 30 seconds is required"))), [])
  /\ Demo.get_news (Some (u "validchan,flooded")) 10 0 (u "newest")
     = Raise (LibError (OtherError (u "FloodWaitError")
                          (u "A wait of 30 seconds is required")))
  /\ http_status (Demo.get_news (Some (u "validchan,flooded")) 10 0 (u "newest"))
     = 500.
Proof. vm_compute. repeat split; reflexivity. Qed.

(** C3.  The name [kanal], in Cyrillic letters, does not resolve.  Its
    entry of [errors] makes a header value that is not Latin-1, so the
    assignment of line 202 raises [UnicodeEncodeError]: the request ends
    in status 500 with no header, alone and also beside a channel that
    resolved, instead of status 200 with the failure listed in
    [X-TG-Errors]. *)
Theorem header_encoding_aborts_request :
  (exists cause,
     resolve_channel Demo.client Demo.int Demo.kanal
     = Raise (cannot_resolve Demo.kanal cause))
  /\ chan_list_of None (Some Demo.kanal) = [Demo.kanal]
  /\ Demo.get_news (Some Demo.kanal) 10 0 (u "newest")
     = Raise (LibError (OtherError (u "UnicodeEncodeError")
                          (u "'latin-1' codec can't encode characters")))
  /\ http_status (Demo.get_news (Some Demo.kanal) 10 0 (u "newest")) = 500
  /\ http_status
       (Demo.get_news (Some (u "validchan," ++ Demo.kanal)) 10 0 (u "newest"))
     = 500.
Proof.
  split.
  - exists (ValueError (u "invalid literal for int() with base 10")).
    reflexivity.
  - vm_compute. repeat split; reflexivity.
Qed.

Lemma all_channels_fail_header_demo :
  exists errors h,
    Demo.get_news (Some (u "nobody, timeout")) 10 0 (u "newest")
    = Return (NewsList.mk 0 [] None, Some h)
    /\ http_status (Demo.get_news (Some (u "nobody, timeout")) 10 0 (u "newest"))
       = 200
    /\ h <> []
    /\ h = str_join (u "; ")
             (map (fun kv => fst kv ++ u ":" ++ snd kv) errors)
    /\ (forall ch,
          In ch (chan_list_of None (Some (u "nobody, timeout"))) ->
          In ch (dict_keys errors))
    /\ Forall (recorded Demo.client Demo.int
                 (chan_list_of None (Some (u "nobody, timeout")))) errors.
Proof.
  apply (proj1 (all_channels_fail_header Demo.client None Demo.lower Demo.int Demo.http_url
                  (Some (u "nobody, timeout")) 10 0 (u "newest"))).
  - vm_compute. discriminate.
  - intros ch Hch. vm_compute in Hch.
    destruct Hch as [<-|[<-|[]]]; (split; [reflexivity|]).
    + exists (ValueError (u "invalid literal for int() with base 10")).
      split; reflexivity.
    + exists (OtherError (u "ConnectionError") (u "Connection lost")).
      split; reflexivity.
Defined.

Lemma page_sorted_demo :
  exists resp hdr,
    Demo.get_news (Some (u "1002,validchan")) 4 0 (u "source")
    = Return (resp, hdr)
    /\ StronglySorted
         (fun a b =>
            str_leb (Demo.lower (NewsItem.source b))
                    (Demo.lower (NewsItem.source a)) = true
            /\ (Demo.lower (NewsItem.source a)
                = Demo.lower (NewsItem.source b) ->
                NewsItem.publishedAt b <= NewsItem.publishedAt a))
         (NewsList.items resp).
Proof.
  run_get_news resp hdr Hn.
  exact (proj2 (proj2 (page_sorted Demo.client None Demo.lower Demo.int Demo.http_url
                         _ _ _ _ _ _ Hn)) eq_refl).
Defined.

Lemma normalizer_title_and_drop_demo :
  news_item_of Demo.http_url Demo.validchan
    (IsMessage (Message.mk 9 (Some (u "  ")) 400 None None None None))
  = Return None
  /\ (exists item,
       news_item_of Demo.http_url Demo.validchan
         (IsMessage (Message.mk 10 (Some (u " Hello
world ")) 500 None None None None)) = Return (Some item)
       /\ NewsItem.text item = u "Hello
world"
       /\ NewsItem.title item = u "Hello")
  /\ news_item_of Demo.http_url Demo.nameless
       (IsMessage (Message.mk 31 (Some (u "Hi")) 120 None None None None))
     = Raise ValidationError.
Proof.
  destruct (normalizer_title_and_drop Demo.client None Demo.lower Demo.int
              Demo.http_url) as (Hdrop & Hkeep & _).
  split; [|split].
  - apply Hdrop. reflexivity.
  - destruct (Hkeep Demo.validchan
                (Message.mk 10 (Some (u " Hello
world ")) 500 None None None None))
      as (_ & Hfields & Hiff & _); [vm_compute; discriminate|].
    destruct (proj2 Hiff) as [item Hitem].
    + split; [vm_compute; discriminate|]. split; reflexivity.
    + exists item. split; [exact Hitem|]. exact (Hfields item Hitem).
  - destruct (Hkeep Demo.nameless
                (Message.mk 31 (Some (u "Hi")) 120 None None None None))
      as (_ & _ & Hiff & [Hitem|Hraise]); [vm_compute; discriminate| |].
    + destruct (proj1 Hiff Hitem) as (Hname & _).
      exfalso. apply Hname. reflexivity.
    + exact Hraise.
Defined.

Lemma next_offset_is_min_demo :
  exists resp hdr,
    Demo.get_news (Some (u "validchan,1002")) 3 0 (u "oldest")
    = Return (resp, hdr)
    /\ (forall z, NewsList.next_offset resp = Some z ->
          exists vs,
            Forall2 (fun it v => Demo.int (NewsItem.id it) = Return v)
              (NewsList.items resp) vs
            /\ In z vs /\ Forall (Z.le z) vs)
    /\ (NewsList.next_offset resp = None <->
        NewsList.items resp = []
        \/ exists it e, In it (NewsList.items resp)
                        /\ Demo.int (NewsItem.id it) = Raise e).
Proof.
  run_get_news resp hdr Hn.
  exact (next_offset_is_min Demo.client None Demo.lower Demo.int Demo.http_url
           _ _ _ _ _ _ Hn).
Defined.

Lemma total_and_limit_demo :
  exists resp hdr,
    Demo.get_news (Some (u "validchan,1002")) 2 0 (u "newest")
    = Return (resp, hdr)
    /\ NewsList.total resp = Z.of_nat (length (NewsList.items resp))
    /\ Z.of_nat (length (NewsList.items resp)) <= 2
    /\ exists fetched,
         length (concat fetched) = 3%nat
         /\ NewsList.items resp
            = firstn 2 (sort_results Demo.lower (u "newest") (concat fetched)).
Proof.
  run_get_news resp hdr Hn.
  destruct (total_and_limit Demo.client None Demo.lower Demo.int Demo.http_url
              _ 2 _ _ _ _ ltac:(lia) Hn)
    as (Ht & Hl & fetched & errors & Hg & Hi).
  split; [exact Ht|]. split; [exact Hl|].
  exists fetched. split; [|exact Hi].
  vm_compute in Hg. injection Hg as <- _. reflexivity.
Defined.


Lemma media_type_precedence_demo :
  media_type_of (Demo.photo_message 8 300) = u "image/jpeg"
  /\ media_type_of (Demo.video_message 21 450) = u "video/mp4".
Proof.
  split.
  - destruct (proj1 (media_type_precedence Demo.client)
                (Demo.photo_message 8 300)) as (_ & _ & Hphoto & _).
    apply Hphoto.
    + intros mime (doc & H & _). discriminate H.
    + intros mime (doc & H & _). discriminate H.
    + discriminate.
  - destruct (proj1 (media_type_precedence Demo.client)
                (Demo.video_message 21 450)) as (Hvideo & _).
    apply Hvideo. unfold declares. eexists.
    split; [reflexivity|]. split; [reflexivity | discriminate].
Defined.

Lemma next_offset_present_demo :
  exists resp hdr,
    Demo.get_news (Some (u "validchan,1002")) 3 0 (u "source")
    = Return (resp, hdr)
    /\ NewsList.items resp <> []
    /\ exists z, NewsList.next_offset resp = Some z.
Proof.
  run_get_news resp hdr Hn.
  assert (Hne : NewsList.items resp <> []).
  { vm_compute in Hn. injection Hn as <- _. discriminate. }
  split; [exact Hne|].
  exact (next_offset_present Demo.client None Demo.lower Demo.int Demo.http_url
           _ _ _ _ _ _ demo_int_str Hn Hne).
Defined.

(** * Further properties of the handlers *)

(** ** Stripping and splitting *)

Lemma drop_while_idem {A} (p : A -> bool) (l : list A) :
  drop_while p (drop_while p l) = drop_while p l.
Proof.
  induction l as [|x l IH]; [reflexivity|]. simpl.
  destruct (p x) eqn:Hx; [exact IH|]. simpl. now rewrite Hx.
Qed.

Lemma drop_while_all {A} (p : A -> bool) (l : list A) :
  Forall (fun x => p x = true) l -> drop_while p l = [].
Proof. induction 1 as [|x l Hx _ IH]; simpl; [|rewrite Hx]; auto. Qed.

Lemma drop_while_In {A} (p : A -> bool) (l : list A) (x : A) :
  In x (drop_while p l) -> In x l.
Proof.
  induction l as [|y l IH]; simpl; [tauto|].
  destruct (p y); [right; auto | auto].
Qed.

Lemma rstrip_idem (s : pystr) : rstrip (rstrip s) = rstrip s.
Proof. unfold rstrip. now rewrite rev_involutive, drop_while_idem. Qed.

Lemma lstrip_rstrip_lstrip (s : pystr) :
  lstrip (rstrip (lstrip s)) = rstrip (lstrip s).
Proof.
  unfold lstrip at 2 3. destruct (drop_while is_space s) as [|c r] eqn:Hs.
  - reflexivity.
  - pose proof (drop_while_head _ _ _ _ Hs) as Hc.
    rewrite rstrip_cons by exact Hc. unfold lstrip. simpl. now rewrite Hc.
Qed.

(** Stripping twice is stripping once. *)
Lemma strip_idem (s : pystr) : strip (strip s) = strip s.
Proof.
  unfold strip. rewrite lstrip_rstrip_lstrip. apply rstrip_idem.
Qed.

Lemma strip_In (s : pystr) (x : N) : In x (strip s) -> In x s.
Proof.
  unfold strip, rstrip, lstrip. intros H. apply in_rev in H.
  apply drop_while_In in H. apply in_rev in H.
  now apply drop_while_In in H.
Qed.

Lemma strip_blank (s : pystr) :
  Forall (fun c => is_space c = true) s -> strip s = [].
Proof.
  intros H. unfold strip, lstrip. now rewrite (drop_while_all _ _ H).
Qed.

Lemma str_split_nonempty (sep : N) (s : pystr) : str_split sep s <> [].
Proof.
  destruct s as [|c s]; simpl; [discriminate|].
  destruct (c =? sep)%N; [discriminate|].
  destruct (str_split sep s); discriminate.
Qed.

(** The parts of a split hold no separator, and only characters of the
    string that was split. *)
Lemma str_split_parts (sep : N) (s : pystr) :
  Forall (fun p => ~ In sep p /\ forall x, In x p -> In x s)
    (str_split sep s).
Proof.
  induction s as [|c s IH]; simpl.
  - constructor; [|constructor]. split; auto.
  - destruct (N.eqb_spec c sep) as [->|Hc].
    + constructor; [split; [auto | intros x []]|].
      eapply Forall_impl; [|exact IH]. intros p [H1 H2].
      split; [exact H1 | intros x Hx; right; auto].
    + destruct (str_split sep s) as [|w ws] eqn:Hs.
      * constructor; [|constructor]. split.
        -- intros [H|[]]. congruence.
        -- intros x [<-|[]]. now left.
      * inversion IH as [|? ? [Hw1 Hw2] Hws]; subst.
        constructor.
        -- split.
           ++ intros [H|H]; [congruence | contradiction].
           ++ intros x [<-|Hx]; [now left | right; auto].
        -- eapply Forall_impl; [|exact Hws]. intros p [H1 H2].
           split; [exact H1 | intros x Hx; right; auto].
Qed.

(** Joining the parts of a split with the separator gives the string
    back. *)
Lemma str_join_split (sep : N) (s : pystr) :
  str_join [sep] (str_split sep s) = s.
Proof.
  induction s as [|c s IH]; [reflexivity|]. simpl.
  pose proof (str_split_nonempty sep s) as Hne.
  destruct (N.eqb_spec c sep) as [->|Hc].
  - destruct (str_split sep s) as [|w ws]; [contradiction|].
    change (str_join [sep] ([] :: w :: ws))
      with (sep :: str_join [sep] (w :: ws)).
    now rewrite IH.
  - destruct (str_split sep s) as [|w ws]; [contradiction|].
    destruct ws as [|w' ws].
    + simpl in *. now rewrite IH.
    + change (str_join [sep] ((c :: w) :: w' :: ws))
        with (c :: str_join [sep] (w :: w' :: ws)).
      now rewrite IH.
Qed.

Lemma str_split_plain (sep : N) (p : pystr) :
  ~ In sep p -> str_split sep p = [p].
Proof.
  induction p as [|c p IH]; intros H; [reflexivity|]. simpl.
  destruct (N.eqb_spec c sep) as [->|Hc]; [exfalso; apply H; now left|].
  rewrite IH; [reflexivity|]. intros Hin. apply H. now right.
Qed.

Lemma str_split_app (sep : N) (p rest : pystr) :
  ~ In sep p -> str_split sep (p ++ sep :: rest) = p :: str_split sep rest.
Proof.
  induction p as [|c p IH]; intros H; simpl.
  - now rewrite N.eqb_refl.
  - destruct (N.eqb_spec c sep) as [->|Hc]; [exfalso; apply H; now left|].
    rewrite IH; [reflexivity|]. intros Hin. apply H. now right.
Qed.

(** Splitting a join of separator-free parts gives the parts back. *)
Lemma str_split_join (sep : N) (parts : list pystr) :
  parts <> [] -> Forall (fun p => ~ In sep p) parts ->
  str_split sep (str_join [sep] parts) = parts.
Proof.
  intros Hne Hall. induction Hall as [|p ps Hp Hps IH]; [contradiction|].
  destruct ps as [|q ps].
  - simpl. now apply str_split_plain.
  - change (str_join [sep] (p :: q :: ps))
      with (p ++ sep :: str_join [sep] (q :: ps)).
    rewrite str_split_app by exact Hp. f_equal. apply IH. discriminate.
Qed.

Lemma str_split_count (sep : N) (s : pystr) :
  length (str_split sep s) = S (count_char sep s).
Proof.
  unfold count_char. induction s as [|c s IH]; [reflexivity|]. simpl.
  rewrite (N.eqb_sym sep c).
  destruct (c =? sep)%N; simpl; [now rewrite IH|].
  pose proof (str_split_nonempty sep s) as Hne.
  destruct (str_split sep s); [contradiction | exact IH].
Qed.

(** ** The requested channels *)

Lemma stripped_nonempty_clean (parts : list pystr) :
  Forall (fun p => ~ In COMMA p) parts ->
  Forall clean_name (stripped_nonempty parts).
Proof.
  unfold stripped_nonempty. induction 1 as [|p ps Hp _ IH]; simpl;
    [constructor|].
  destruct (truthy (strip p)) eqn:Ht; [|exact IH].
  simpl. constructor; [|exact IH]. split; [now apply truthy_true|].
  split; [apply strip_idem|]. intros Hin. apply Hp. now apply strip_In.
Qed.

Lemma stripped_nonempty_fixed (names : list pystr) :
  Forall clean_name names -> stripped_nonempty names = names.
Proof.
  unfold stripped_nonempty. induction 1 as [|c cs (Hne & Hs & _) _ IH];
    [reflexivity|]. simpl. rewrite Hs.
  apply truthy_true in Hne. rewrite Hne. simpl. now rewrite Hs, IH.
Qed.

Lemma stripped_nonempty_blank (parts : list pystr) :
  Forall (Forall (fun c => is_space c = true)) parts ->
  stripped_nonempty parts = [].
Proof.
  unfold stripped_nonempty. induction 1 as [|p ps Hp _ IH]; [reflexivity|].
  simpl. now rewrite (strip_blank p Hp).
Qed.

Lemma DEFAULT_CHANNELS_clean TG_CHANNELS :
  Forall clean_name (DEFAULT_CHANNELS TG_CHANNELS).
Proof.
  apply stripped_nonempty_clean.
  eapply Forall_impl; [|apply str_split_parts]. now intros p [H _].
Qed.

(** ** The title *)

Lemma up_to_newline_prefix (s : pystr) :
  is_prefix (up_to_newline s) s /\ ~ In NEWLINE (up_to_newline s).
Proof.
  induction s as [|c s [[rest IH] Hnl]]; simpl.
  - split; [now exists [] | tauto].
  - destruct (N.eqb_spec c NEWLINE) as [->|Hc].
    + split; [now exists (NEWLINE :: s) | tauto].
    + split.
      * exists rest. simpl. now rewrite <- IH.
      * intros [H|H]; [congruence | contradiction].
Qed.

Lemma firstn_prefix (n : nat) (s t : pystr) :
  is_prefix s t -> is_prefix (firstn n s) t.
Proof.
  intros [rest ->]. exists (skipn n s ++ rest).
  now rewrite app_assoc, firstn_skipn.
Qed.

(** X8.  The title [pick_title_and_url] derives is never empty, has at
    most 120 characters and no newline; the text has no white space left
    around it; and unless the text is empty, the title is a prefix of
    it. *)
Theorem title_shape (msg : Message.t) :
  let title := fst (fst (pick_title_and_url msg)) in
  let text := snd (fst (pick_title_and_url msg)) in
  title <> []
  /\ (length title <= 120)%nat
  /\ ~ In NEWLINE title
  /\ strip text = text
  /\ (text <> [] -> is_prefix title text).
Proof.
  cbv zeta. destruct (pick_title_and_url_fields msg) as [url ->].
  cbn [fst snd]. set (body := strip (or_empty (Message.message msg))).
  destruct (up_to_newline_prefix body) as [Hpre Hnl].
  unfold title_as_worded.
  destruct (firstn 120 (up_to_newline body)) as [|c t] eqn:Hf.
  - split; [vm_compute; discriminate|].
    split; [vm_compute; lia|].
    split; [vm_compute; intuition discriminate|].
    split; [apply strip_idem|].
    intros Hne. exfalso. subst body.
    destruct (title_of_nonempty_body _ Hne) as [Ht Hn].
    rewrite Ht, Hf in Hn. now apply Hn.
  - rewrite <- Hf.
    split; [rewrite Hf; discriminate|].
    split; [apply firstn_le_length|].
    split; [intros Hin; apply Hnl; eapply firstn_In; exact Hin|].
    split; [apply strip_idem|].
    intros _. now apply firstn_prefix.
Qed.

Section Requests.
Variable tg_client : Client.
Variable TG_CHANNELS : option pystr.
Variable str_lower : pystr -> pystr.
Variable py_int : pystr -> outcome lib_error Z.
Variable HttpUrl : pystr -> option pystr.

Local Abbreviation resolve_channel := (App.resolve_channel tg_client py_int).
Local Abbreviation news_item_of := (App.news_item_of HttpUrl).
Local Abbreviation collect_items := (App.collect_items HttpUrl).
Local Abbreviation accepted := (App.accepted HttpUrl).
Local Abbreviation fetch_one := (App.fetch_one tg_client py_int HttpUrl).
Local Abbreviation gather := (App.gather tg_client py_int HttpUrl).
Local Abbreviation task_raises := (App.task_raises tg_client py_int HttpUrl).
Local Abbreviation chan_list_of := (App.chan_list_of TG_CHANNELS).
Local Abbreviation get_news :=
  (App.get_news tg_client TG_CHANNELS str_lower py_int HttpUrl).
Local Abbreviation next_offset_of := (App.next_offset_of py_int).
Local Abbreviation sort_results := (App.sort_results str_lower).
Local Abbreviation proxy_media := (App.proxy_media tg_client).
Local Abbreviation DEFAULT_CHANNELS := (App.DEFAULT_CHANNELS TG_CHANNELS).
Local Abbreviation list_default_channels := (App.list_default_channels TG_CHANNELS).

(** X1.  Whatever the query and the environment hold, every channel name
    [get_news] works on is non-empty, has no white space around it and no
    comma in it. *)
Theorem chan_list_clean (channels : option pystr) :
  Forall clean_name (chan_list_of channels).
Proof.
  unfold App.chan_list_of. apply stripped_nonempty_clean.
  assert (Hd : Forall (fun p => ~ In COMMA p) DEFAULT_CHANNELS).
  { eapply Forall_impl; [|apply DEFAULT_CHANNELS_clean]. now intros p (_ & _ & H). }
  destruct channels as [cs|]; [|exact Hd].
  destruct (truthy cs); [|exact Hd].
  eapply Forall_impl; [|apply str_split_parts]. now intros p [H _].
Qed.

(** X2.  Without a [channels] parameter, or with an empty one, [get_news]
    works on exactly the channels [list_default_channels] reports: the
    second stripping and filtering of line 134 changes nothing. *)
Theorem default_channels_used :
  chan_list_of None = list_default_channels
  /\ chan_list_of (Some []) = list_default_channels.
Proof.
  unfold App.chan_list_of, App.list_default_channels. cbn [truthy].
  split; apply stripped_nonempty_fixed, DEFAULT_CHANNELS_clean.
Qed.

(** X3.  A query that joins clean names with commas is read back as
    exactly those names, in order, whatever the defaults are. *)
Theorem chan_list_of_join (names : list pystr) :
  names <> [] -> Forall clean_name names ->
  chan_list_of (Some (str_join [COMMA] names)) = names.
Proof.
  intros Hne Hall. unfold App.chan_list_of.
  assert (Ht : truthy (str_join [COMMA] names) = true).
  { apply truthy_true. destruct Hall as [|c cs (Hc & _) _]; [contradiction|].
    now apply str_join_nonempty. }
  rewrite Ht, str_split_join; [now apply stripped_nonempty_fixed | exact Hne|].
  eapply Forall_impl; [|exact Hall]. now intros p (_ & _ & H).
Qed.

(** X4.  A non-empty [channels] parameter made only of commas and white
    space names no channel and does not fall back to the defaults: the
    answer is the empty page, with no header, and the client is not
    consulted. *)
Theorem blank_query_empty_page (cs : pystr) limit offset_id sort :
  cs <> [] -> Forall blank_or_comma cs ->
  chan_list_of (Some cs) = []
  /\ get_news (Some cs) limit offset_id sort
     = Return (NewsList.mk 0 [] None, None).
Proof.
  intros Hne Hall.
  assert (Hc : chan_list_of (Some cs) = []).
  { unfold App.chan_list_of. apply truthy_true in Hne. rewrite Hne.
    apply stripped_nonempty_blank.
    eapply Forall_impl; [|apply str_split_parts]. intros p [Hp Hin].
    apply Forall_forall. intros x Hx.
    destruct (proj1 (Forall_forall _ _) Hall x (Hin x Hx)) as [->|Hs];
      [contradiction | exact Hs]. }
  split; [exact Hc|]. unfold App.get_news. now rewrite Hc.
Qed.

(** ** Resolution *)

(** X5.  [resolve_channel] answers with an entity or with status 400: a
    library exception never gets through as it is, and the detail quotes
    the identifier as it was given, followed by the text of the
    underlying exception. *)
Theorem resolve_channel_only_400 (entity : pystr) :
  (exists ent, resolve_channel entity = Return ent)
  \/ (http_status (resolve_channel entity) = 400
      /\ exists cause,
           resolve_channel entity
           = Raise (HTTPException 400
                      (u "Cannot resolve channel '" ++ entity ++ u "': "
                       ++ error_str cause))).
Proof.
  destruct (resolve_channel entity) as [ent|ex] eqn:Hr; [left; eauto|].
  right. destruct (resolve_channel_raises _ _ _ _ Hr) as [cause ->].
  split; [reflexivity|]. exists cause. reflexivity.
Qed.

(** X6.  Identifiers with the same normal form (say [@name],
    [https://t.me/name] and [name] with blanks around) resolve alike: to
    the same entity, or to a failure with the same underlying cause. *)
Theorem resolve_channel_by_normal_form (a b : pystr) :
  normalize_identifier a = normalize_identifier b ->
  (forall ent, resolve_channel a = Return ent <-> resolve_channel b = Return ent)
  /\ (forall cause,
        resolve_channel a = Raise (cannot_resolve a cause) ->
        resolve_channel b = Raise (cannot_resolve b cause)).
Proof.
  intros Hn. unfold App.resolve_channel. rewrite Hn.
  assert (Hinj : forall x c c', cannot_resolve x c = cannot_resolve x c' ->
                                error_str c = error_str c').
  { unfold cannot_resolve. intros x c c' H.
    assert (Hd : forall s d d', HTTPException s d = HTTPException s d' -> d = d')
      by (intros ? ? ? E; now inversion E).
    apply Hd in H. now do 3 apply app_inv_head in H. }
  destruct (get_entity tg_client (ByName (normalize_identifier b)))
    as [ent|e]; [split; [intros ?; reflexivity | discriminate]|].
  assert (Hwrap : forall c,
            @Raise exn Entity.t (cannot_resolve a e)
            = Raise (cannot_resolve a c) ->
            @Raise exn Entity.t (cannot_resolve b e)
            = Raise (cannot_resolve b c)).
  { intros c H. assert (H' : cannot_resolve a e = cannot_resolve a c)
      by congruence.
    apply Hinj in H'. unfold cannot_resolve. now rewrite H'. }
  destruct e;
    try (split; [intros ?; split; discriminate | exact Hwrap]);
    (destruct (n <- py_int (normalize_identifier b);;
               get_entity tg_client (ById n)) as [ent|e'];
     [split; [intros ?; reflexivity | discriminate]|];
     split; [intros ?; split; discriminate|];
     intros c H;
     assert (H' : cannot_resolve a e' = cannot_resolve a c) by congruence;
     apply Hinj in H'; unfold cannot_resolve; now rewrite H').
Qed.

(** X7.  The numeric id is a fallback for a rejected username only.  A
    name lookup that returns decides; one that fails for another reason
    (network, authorisation) gives the 400 with that reason, even for an
    identifier that is a number; after a rejected username the outcome is
    that of parsing the identifier and looking the number up, and a failure
    there is the one reported. *)
Theorem resolve_channel_order (entity : pystr) :
  let e := normalize_identifier entity in
  (forall ent, get_entity tg_client (ByName e) = Return ent ->
               resolve_channel entity = Return ent)
  /\ (forall err, get_entity tg_client (ByName e) = Raise err ->
                  is_username_error err = false ->
                  resolve_channel entity = Raise (cannot_resolve entity err))
  /\ (forall err, get_entity tg_client (ByName e) = Raise err ->
                  is_username_error err = true ->
                  (forall n ent, py_int e = Return n ->
                                 get_entity tg_client (ById n) = Return ent ->
                                 resolve_channel entity = Return ent)
                  /\ (forall n err', py_int e = Return n ->
                                     get_entity tg_client (ById n) = Raise err' ->
                                     resolve_channel entity
                                     = Raise (cannot_resolve entity err'))
                  /\ (forall err', py_int e = Raise err' ->
                                   resolve_channel entity
                                   = Raise (cannot_resolve entity err'))).
Proof.
  cbv zeta. unfold App.resolve_channel. split; [|split].
  - intros ent ->. reflexivity.
  - intros err -> Hu. destruct err; try reflexivity; discriminate.
  - intros err -> Hu.
    destruct err; try discriminate;
      (split; [|split];
       [ intros n ent -> Hid; cbn [bind]; now rewrite Hid
       | intros n err' -> Hid; cbn [bind]; now rewrite Hid
       | intros err' ->; reflexivity ]).
Qed.

(** ** Items *)


(** ** The error map and the outcome of a request *)

Lemma dict_set_NoDup (k v : pystr) (d : dict) :
  NoDup (dict_keys d) -> NoDup (dict_keys (dict_set k v d)).
Proof.
  unfold dict_keys. induction d as [|[k' v'] d IH]; simpl; intros H.
  - repeat constructor. tauto.
  - inversion H as [|? ? Hnin Hd]; subst.
    destruct (str_eqb k' k) eqn:E; simpl.
    + apply str_eqb_eq in E. subst k'. now constructor.
    + constructor; [|now apply IH]. intros Hin.
      apply (dict_set_keys k v d k') in Hin as [->|Hin]; [|contradiction].
      now rewrite str_eqb_refl in E.
Qed.

Lemma gather_keys_NoDup limit offset_id (chans : list pystr) :
  forall errors r errors',
  gather limit offset_id chans errors = (r, errors') ->
  NoDup (dict_keys errors) -> NoDup (dict_keys errors').
Proof.
  induction chans as [|ch rest IH]; intros errors r errors' H Hnd.
  - now injection H as _ <-.
  - cbn [App.gather] in H.
    destruct (fetch_one_cases tg_client py_int HttpUrl limit offset_id ch
                errors)
      as [(c & _ & Hf) | [(ent & msgs & arr & _ & _ & _ & Hf) | (e & _ & Hf)]];
      rewrite Hf in H.
    + destruct (gather limit offset_id rest _) as [[arrs|ex] errors2] eqn:Hg;
        injection H as _ <-;
        eapply IH; try exact Hg; now apply dict_set_NoDup.
    + destruct (gather limit offset_id rest _) as [[arrs|ex] errors2] eqn:Hg;
        injection H as _ <-; eapply IH; eauto.
    + now injection H as _ <-.
Qed.

(** X10.  The header names each failing channel once, however often it
    was requested: the entries behind it have distinct keys, which are
    exactly the requested channels that failed to resolve. *)
Theorem header_entries_distinct channels limit offset_id sort resp hdr :
  get_news channels limit offset_id sort = Return (resp, hdr) ->
  exists errors,
    hdr = errors_header errors
    /\ NoDup (dict_keys errors)
    /\ forall k, In k (dict_keys errors) <->
                 In k (chan_list_of channels)
                 /\ exists ex, resolve_channel k = Raise ex.
Proof.
  intros Hn.
  destruct (get_news_returns _ _ _ _ _ _ _ _ _ _ _ Hn)
    as (fetched & errors & Hg & _ & _ & _ & -> & _).
  exists errors. split; [reflexivity|]. split.
  - eapply gather_keys_NoDup; [exact Hg | constructor].
  - intros k.
    destruct (gather_returns tg_client str_lower py_int HttpUrl _ _ _ _ _ _ Hg)
      as (_ & Hk & _).
    rewrite Hk. simpl. tauto.
Qed.


(** X12.  Sorting and cutting neither invent nor duplicate items: the
    page together with what the cut dropped is a rearrangement of
    everything the channels returned, and nothing is dropped when that
    fits within [limit]. *)
Theorem page_rearranges_fetched channels limit offset_id sort resp hdr :
  get_news channels limit offset_id sort = Return (resp, hdr) ->
  exists fetched errors dropped,
    gather limit offset_id (chan_list_of channels) [] = (Return fetched, errors)
    /\ Permutation (NewsList.items resp ++ dropped) (concat fetched)
    /\ (Z.of_nat (length (concat fetched)) <= limit -> dropped = []).
Proof.
  intros Hn.
  destruct (get_news_returns _ _ _ _ _ _ _ _ _ _ _ Hn)
    as (fetched & errors & Hg & Hi & _).
  set (sorted := sort_results sort (concat fetched)) in *.
  assert (Hlen : length sorted = length (concat fetched))
    by apply Permutation_length, sort_results_perm.
  unfold slice_upto in Hi.
  destruct (Z.leb_spec 0 limit) as [Hl|Hl].
  - exists fetched, errors, (skipn (Z.to_nat limit) sorted).
    split; [exact Hg|]. split.
    + rewrite Hi, firstn_skipn. apply sort_results_perm.
    + intros Hfit. apply skipn_all2. lia.
  - exists fetched, errors,
      (skipn (Z.to_nat (Z.of_nat (length sorted) + limit)) sorted).
    split; [exact Hg|]. split.
    + rewrite Hi, firstn_skipn. apply sort_results_perm.
    + intros Hfit. lia.
Qed.

(** ** Ties in the sort *)

Section Stable.
Context {A K : Type} (key : A -> K) (lt keq : K -> K -> bool).
Hypothesis keq_eq : forall a b, keq a b = true <-> a = b.
Hypothesis lt_asym : forall a b, lt a b = true -> lt b a = false.
Hypothesis le_trans :
  forall a b c, lt b a = false -> lt c b = false -> lt c a = false.

Lemma insert_sorted_filter (k : K) (x : A) (l : list A) :
  StronglySorted (not_after key lt) l ->
  filter (fun y => keq (key y) k) (insert_sorted key lt x l)
  = filter (fun y => keq (key y) k) l ++ (if keq (key x) k then [x] else []).
Proof.
  set (P := fun y => keq (key y) k).
  assert (Hcons : forall a l0,
            filter P (a :: l0)
            = if keq (key a) k then a :: filter P l0 else filter P l0)
    by reflexivity.
  induction 1 as [|y l Hs IH Hy]; cbn [insert_sorted].
  - rewrite Hcons. reflexivity.
  - destruct (lt (key x) (key y)) eqn:Hxy.
    + rewrite Hcons.
      destruct (keq (key x) k) eqn:Hx; [|now rewrite app_nil_r].
      apply keq_eq in Hx.
      assert (Hnone : forall z, In z (y :: l) -> P z = false).
      { intros z Hz. unfold P. destruct (keq (key z) k) eqn:Hzk; [|reflexivity].
        apply keq_eq in Hzk. exfalso. rewrite <- Hx in Hzk.
        destruct Hz as [->|Hz].
        - rewrite Hzk in Hxy. pose proof (lt_asym _ _ Hxy). congruence.
        - pose proof (proj1 (Forall_forall _ _) Hy z Hz) as Hyz.
          unfold not_after in Hyz. congruence. }
      assert (Hf : filter P (y :: l) = []).
      { clear -Hnone. induction (y :: l) as [|z zs IHz]; [reflexivity|].
        simpl. rewrite (Hnone z (or_introl eq_refl)).
        apply IHz. intros w Hw. apply Hnone. now right. }
      now rewrite Hf.
    + rewrite !Hcons, IH. now destruct (keq (key y) k).
Qed.

(** [list.sort] is stable: the elements of any one key keep their
    order, in both directions. *)
Lemma list_sort_stable (reverse : bool) (k : K) (l : list A) :
  filter (fun y => keq (key y) k) (list_sort key lt reverse l)
  = filter (fun y => keq (key y) k) l.
Proof.
  assert (Hasc : forall l0,
            filter (fun y => keq (key y) k) (sort_asc key lt l0)
            = filter (fun y => keq (key y) k) l0).
  { intros l0. unfold sort_asc.
    enough (H : forall acc,
               StronglySorted (not_after key lt) acc ->
               filter (fun y => keq (key y) k)
                 (fold_left (fun acc x => insert_sorted key lt x acc) l0 acc)
               = filter (fun y => keq (key y) k) acc
                 ++ filter (fun y => keq (key y) k) l0)
      by (apply (H []); constructor).
    induction l0 as [|x l0 IH0]; intros acc Hacc; simpl.
    - now rewrite app_nil_r.
    - rewrite IH0 by (now apply insert_sorted_sorted).
      rewrite insert_sorted_filter by exact Hacc.
      rewrite <- app_assoc. now destruct (keq (key x) k). }
  unfold list_sort. destruct reverse; [|apply Hasc].
  now rewrite filter_rev, Hasc, filter_rev, rev_involutive.
Qed.
End Stable.

(** X13.  Items that tie in the sort keep the order they were fetched
    in: under [newest] and [oldest] the items of one publication time,
    under [source] the items of one lower-cased source and publication
    time, stand in the sorted list as they stood in the merged one. *)
Theorem ties_keep_fetch_order (sort : pystr) (results : list NewsItem.t) :
  (sort = u "newest" \/ sort = u "oldest" ->
   forall t, published_at t (sort_results sort results)
             = published_at t results)
  /\ (sort <> u "newest" -> sort <> u "oldest" ->
      forall s t, from_source_at str_lower s t (sort_results sort results)
                  = from_source_at str_lower s t results).
Proof.
  split.
  - intros Hs t. unfold published_at, App.sort_results.
    destruct Hs as [-> | ->].
    + change (str_eqb (u "newest") (u "newest")) with true. cbv iota.
      apply (list_sort_stable NewsItem.publishedAt Z.ltb Z.eqb
               Z.eqb_eq Zltb_asym Zleb_trans true t).
    + change (str_eqb (u "oldest") (u "newest")) with false.
      change (str_eqb (u "oldest") (u "oldest")) with true. cbv iota.
      apply (list_sort_stable NewsItem.publishedAt Z.ltb Z.eqb
               Z.eqb_eq Zltb_asym Zleb_trans false t).
  - intros Hn Ho s t. unfold from_source_at, App.sort_results.
    apply str_eqb_neq in Hn, Ho. rewrite Hn, Ho.
    apply (list_sort_stable
             (fun x => (str_lower (NewsItem.source x), NewsItem.publishedAt x))
             tuple_ltb
             (fun a b => str_eqb (fst a) (fst b) && (snd a =? snd b))
             ltac:(intros [a1 a2] [b1 b2]; cbn [fst snd];
                   rewrite andb_true_iff, str_eqb_eq, Z.eqb_eq;
                   split; [intros [-> ->]; reflexivity
                          | intros [= -> ->]; auto])
             tuple_ltb_asym tuple_leb_trans true (s, t)).
Qed.

(** ** Channels that fail to resolve *)

Lemma gather_without_failed limit offset_id (chans : list pystr) :
  forall errors fetched errors',
  gather limit offset_id chans errors = (Return fetched, errors') ->
  forall errors0, exists fetched',
    gather limit offset_id
      (filter (fun ch => is_return (resolve_channel ch)) chans) errors0
    = (Return fetched', errors0)
    /\ concat fetched' = concat fetched.
Proof.
  induction chans as [|ch rest IH]; intros errors fetched errors' H errors0.
  - injection H as <- _. now exists [].
  - cbn [App.gather] in H.
    destruct (fetch_one_cases tg_client py_int HttpUrl limit offset_id ch
                errors)
      as [(c & Hr & Hf)
         |[(ent & msgs & arr & Hr & Hm & Hcol & Hf) | (e & _ & Hf)]];
      rewrite Hf in H; [| |discriminate];
      (destruct (gather limit offset_id rest _) as [[arrs|ex] errors2] eqn:Hg;
       [|discriminate]); injection H as <- _;
      destruct (IH _ _ _ Hg errors0) as (fetched' & Hg' & Hc);
      cbn [filter]; rewrite Hr; cbn [is_return].
    + exists fetched'. split; [exact Hg' | exact Hc].
    + exists (arr :: fetched').
      cbn [App.gather]. unfold App.fetch_one at 1. rewrite Hr, Hm.
      cbn [call bind]. rewrite Hcol. cbn [call]. rewrite Hg'.
      split; [reflexivity|]. simpl. now rewrite Hc.
Qed.

(** X14.  Channels that fail to resolve only add to the header: a request
    for the same channels without the failing ones gets the same body
    ([items], [total], [next_offset]) and no header. *)
Theorem failed_channels_leave_body channels channels' limit offset_id sort
    resp hdr :
  chan_list_of channels'
  = filter (fun ch => is_return (resolve_channel ch)) (chan_list_of channels) ->
  get_news channels limit offset_id sort = Return (resp, hdr) ->
  get_news channels' limit offset_id sort = Return (resp, None).
Proof.
  intros Hc Hn.
  destruct (get_news_returns _ _ _ _ _ _ _ _ _ _ _ Hn)
    as (fetched & errors & Hg & Hi & Ht & Ho & _).
  destruct (gather_without_failed _ _ _ _ _ _ Hg [])
    as (fetched' & Hg' & Hcat).
  rewrite <- Hc in Hg'.
  destruct resp as [total items next_offset]. cbn in Hi, Ht, Ho.
  destruct (chan_list_of channels') as [|c cs] eqn:Hl.
  - injection Hg' as <-. cbn [concat] in Hcat. rewrite <- Hcat in Hi.
    rewrite sort_results_nil, slice_upto_nil in Hi. subst items.
    cbn in Ht, Ho. subst. unfold App.get_news. now rewrite Hl.
  - assert (Hne : chan_list_of channels' <> []) by (rewrite Hl; discriminate).
    rewrite <- Hl in Hg'.
    rewrite (get_news_of_gather _ _ _ _ _ _ _ _ sort _ _ Hne Hg').
    cbv zeta. cbn [App.set_errors_header App.errors_header call bind].
    rewrite Hcat, <- Hi, <- Ht, <- Ho. reflexivity.
Qed.

(** ** The cursor *)

Lemma Forall2_In_left {X Y} (R : X -> Y -> Prop) (l : list X) (l' : list Y)
    (x : X) :
  Forall2 R l l' -> In x l -> exists y, In y l' /\ R x y.
Proof.
  induction 1 as [|a b l l' Hab _ IH]; intros Hin; [contradiction|].
  destruct Hin as [<-|Hin].
  - exists b. split; [now left | exact Hab].
  - destruct (IH Hin) as (y & Hy & Hr). exists y. split; [now right | exact Hr].
Qed.

(** X15.  With [int] reading back what [str] prints, the cursor of a page
    is the id of one of its items, and no item of the page has a smaller
    id: it is where the next request for older messages starts. *)
Theorem next_offset_on_page channels limit offset_id sort resp hdr z :
  (forall n, py_int (py_str n) = Return n) ->
  get_news channels limit offset_id sort = Return (resp, hdr) ->
  NewsList.next_offset resp = Some z ->
  (exists item, In item (NewsList.items resp) /\ NewsItem.id item = py_str z)
  /\ (forall item n, In item (NewsList.items resp) ->
                     NewsItem.id item = py_str n -> z <= n).
Proof.
  intros Hround Hn Hz.
  destruct (get_news_returns _ _ _ _ _ _ _ _ _ _ _ Hn) as (_ & _ & _ & _ & _ & Ho & _).
  rewrite Ho in Hz.
  destruct (proj1 (next_offset_of_spec py_int _) z Hz) as (vs & Hvs & Hin & Hle).
  split.
  - destruct (Forall2_In_right _ _ _ _ Hvs Hin) as (item & Hitem & Hp).
    exists item. split; [exact Hitem|].
    destruct (get_news_item_origin _ _ _ _ _ _ _ _ _ _ _ _ Hn Hitem)
      as (ch & ent & msgs & m & _ & _ & _ & _ & Hit).
    destruct (news_item_of_inv _ _ _ _ Hit) as (m' & _ & _ & Hid & _).
    rewrite Hid, Hround in Hp. injection Hp as <-. exact Hid.
  - intros item n Hitem Hid.
    destruct (Forall2_In_left _ _ _ _ Hvs Hitem) as (v & Hv & Hp).
    rewrite Hid, Hround in Hp. injection Hp as <-.
    exact (proj1 (Forall_forall _ _) Hle n Hv).
Qed.

(** ** Media *)

Lemma media_info_none (m : Message.t) :
  media_info m = None <-> no_attachment m.
Proof.
  unfold media_info, no_attachment.
  destruct (Message.photo m), (Message.video m), (Message.document m);
    intuition congruence.
Qed.

(** X16.  [media_info] describes a message exactly when [proxy_media]
    would serve it: it gives nothing for the messages without photo, video
    and document, which are the fetched messages answered with the 404.
    Of several attachments it names the photo first, then the video, then
    the document, with the attachment's own mime type and size. *)
Theorem media_info_matches_proxy :
  (forall m,
     (media_info m = None <-> no_attachment m)
     /\ (Message.photo m <> None -> media_info m = Some PhotoInfo)
     /\ (forall v, Message.photo m = None -> Message.video m = Some v ->
                   media_info m
                   = Some (VideoInfo (Document.mime_type v) (Document.size v)))
     /\ (forall d, Message.photo m = None -> Message.video m = None ->
                   Message.document m = Some d ->
                   media_info m
                   = Some (DocumentInfo (Document.mime_type d)
                             (Document.size d))))
  /\ (forall channel_id message_id ent m,
        get_entity tg_client (ById channel_id) = Return ent ->
        get_message tg_client ent message_id = Return (Some m) ->
        (proxy_media channel_id message_id = Raise media_not_found
         <-> media_info m = None)).
Proof.
  split.
  - intros m. split; [apply media_info_none|]. unfold media_info.
    split; [destruct (Message.photo m); [reflexivity | contradiction]|].
    split.
    + intros v -> ->. reflexivity.
    + intros d -> -> ->. reflexivity.
  - intros channel_id message_id ent m He Hm.
    rewrite media_info_none, <- has_attachment_false.
    unfold App.proxy_media. rewrite He. cbn [call bind]. rewrite Hm.
    cbn [call bind].
    destruct (is_some (Message.photo m) || is_some (Message.video m)
              || is_some (Message.document m)); cbn [negb].
    + destruct (download_media tg_client m); cbn [call bind];
        split; discriminate.
    + split; reflexivity.
Qed.

(** X17.  The media type [proxy_media] answers with is never empty: an
    empty declared mime type is passed over like a missing one. *)
Theorem media_type_never_empty :
  (forall m, media_type_of m <> [])
  /\ (forall channel_id message_id buf content_type,
        proxy_media channel_id message_id = Return (buf, content_type) ->
        content_type <> []).
Proof.
  assert (H : forall m, media_type_of m <> []).
  { intros m. unfold media_type_of.
    destruct (declared_mime (Message.video m)) as [mt|] eqn:Hv.
    - apply declared_mime_some in Hv as (_ & _ & _ & Hne). exact Hne.
    - destruct (declared_mime (Message.document m)) as [mt|] eqn:Hd.
      + apply declared_mime_some in Hd as (_ & _ & _ & Hne). exact Hne.
      + destruct (is_some (Message.photo m)); vm_compute; discriminate. }
  split; [exact H|].
  intros channel_id message_id buf ct. unfold App.proxy_media.
  destruct (get_entity tg_client (ById channel_id)) as [ent|e];
    [|discriminate]. cbn [call bind].
  destruct (get_message tg_client ent message_id) as [[m|]|e];
    try discriminate. cbn [call bind].
  destruct (negb _); [discriminate|].
  destruct (download_media tg_client m) as [b|e]; [|discriminate].
  cbn [call bind]. intros [= _ <-]. apply H.
Qed.

(** X18.  [proxy_media] answers 200, 404 or 500 and never 400: a channel
    id that cannot be looked up, a message fetch that raises and a
    download that raises all come out as the library's own exception
    (status 500), not as "Media not found". *)
Theorem proxy_media_status channel_id message_id :
  let r := proxy_media channel_id message_id in
  (http_status r = 200 \/ http_status r = 404 \/ http_status r = 500)
  /\ (forall e, get_entity tg_client (ById channel_id) = Raise e ->
                r = Raise (LibError e))
  /\ (forall ent e,
        get_entity tg_client (ById channel_id) = Return ent ->
        get_message tg_client ent message_id = Raise e ->
        r = Raise (LibError e))
  /\ (forall ent m e,
        get_entity tg_client (ById channel_id) = Return ent ->
        get_message tg_client ent message_id = Return (Some m) ->
        ~ no_attachment m ->
        download_media tg_client m = Raise e ->
        r = Raise (LibError e)).
Proof.
  cbv zeta. unfold App.proxy_media. split; [|split; [|split]].
  - destruct (get_entity tg_client (ById channel_id)) as [ent|e];
      cbn [call bind]; [|auto].
    destruct (get_message tg_client ent message_id) as [[m|]|e];
      cbn [call bind]; [|auto|auto].
    destruct (negb _); [auto|].
    destruct (download_media tg_client m); cbn [call bind]; auto.
  - intros e ->. reflexivity.
  - intros ent e -> Hm. cbn [call bind]. now rewrite Hm.
  - intros ent m e -> Hm Hno Hd. cbn [call bind]. rewrite Hm. cbn [call bind].
    destruct (is_some (Message.photo m) || is_some (Message.video m)
              || is_some (Message.document m)) eqn:Ha.
    + cbn [negb]. now rewrite Hd.
    + apply has_attachment_false in Ha. contradiction.
Qed.

End Requests.

(** ** Settings *)

(** X19.  The list of allowed origins is never empty and its entries
    carry no white space around them; a set, non-empty variable gives one
    entry per comma-separated field, empty fields included, and an unset
    or empty variable gives the single local origin. *)
Theorem allow_origins_shape (env : option pystr) :
  allow_origins env <> []
  /\ Forall (fun o => strip o = o) (allow_origins env)
  /\ (forall s, env = Some s -> s <> [] ->
        length (allow_origins env) = S (count_char COMMA s))
  /\ (env = None \/ env = Some [] ->
      allow_origins env = [u "http://localhost:5174"]).
Proof.
  unfold allow_origins, CORS_ORIGINS. split; [|split; [|split]].
  - intros H. apply map_eq_nil in H. now apply str_split_nonempty in H.
  - apply Forall_forall. intros o Ho. apply in_map_iff in Ho as (p & <- & _).
    apply strip_idem.
  - intros s -> Hs. apply truthy_true in Hs. rewrite Hs, length_map.
    apply str_split_count.
  - intros [-> | ->]; reflexivity.
Qed.

(** ** The further properties at work on the sample client *)

Lemma chan_list_of_join_demo :
  chan_list_of (Some (u "flooded"))
    (Some (str_join [COMMA] [u "validchan"; u "1002"]))
  = [u "validchan"; u "1002"].
Proof.
  apply (chan_list_of_join (Some (u "flooded")) [u "validchan"; u "1002"]).
  - discriminate.
  - repeat (apply Forall_cons;
            [unfold clean_name; vm_compute; intuition discriminate|]).
    apply Forall_nil.
Defined.

Lemma blank_query_empty_page_demo :
  chan_list_of (Some (u "validchan")) (Some (u " , ,")) = []
  /\ get_news Demo.client (Some (u "validchan")) Demo.lower Demo.int Demo.http_url
       (Some (u " , ,")) 10 0 (u "newest")
     = Return (NewsList.mk 0 [] None, None).
Proof.
  apply (blank_query_empty_page Demo.client (Some (u "validchan"))
           Demo.lower Demo.int Demo.http_url (u " , ,") 10 0 (u "newest")).
  - discriminate.
  - repeat (apply Forall_cons;
            [first [left; reflexivity | right; reflexivity]|]).
    apply Forall_nil.
Defined.

Lemma resolve_channel_by_normal_form_demo :
  resolve_channel Demo.client Demo.int (u " https://t.me/validchan ")
  = Return Demo.validchan.
Proof.
  apply (proj1 (proj1 (resolve_channel_by_normal_form Demo.client Demo.int
                         (u "@validchan") (u " https://t.me/validchan ")
                         eq_refl)
                  Demo.validchan)).
  reflexivity.
Defined.

Lemma resolve_channel_order_demo :
  resolve_channel Demo.client Demo.int (u "@1002") = Return Demo.daily.
Proof.
  pose proof (resolve_channel_order Demo.client Demo.int (u "@1002")) as H.
  cbv zeta in H. destruct H as (_ & _ & H).
  destruct (H (UsernameInvalidError (u "Nobody is using this username"))
              eq_refl eq_refl) as (Hok & _).
  apply (Hok 1002 Demo.daily); reflexivity.
Defined.

Lemma title_shape_demo :
  is_prefix
    (fst (fst (pick_title_and_url
                 (Message.mk 10 (Some (u " Hello
world ")) 500 None None None None))))
    (snd (fst (pick_title_and_url
                 (Message.mk 10 (Some (u " Hello
world ")) 500 None None None None)))).
Proof.
  pose proof (title_shape
                (Message.mk 10 (Some (u " Hello
world ")) 500 None None None None)) as H.
  cbv zeta in H. destruct H as (_ & _ & _ & _ & H).
  apply H. vm_compute. discriminate.
Defined.


Lemma header_entries_distinct_demo :
  exists resp hdr,
    Demo.get_news (Some (u "nobody,validchan,nobody")) 5 0 (u "newest")
    = Return (resp, hdr)
    /\ exists errors,
         hdr = errors_header errors /\ NoDup (dict_keys errors).
Proof.
  run_get_news resp hdr Hn.
  destruct (header_entries_distinct Demo.client None Demo.lower Demo.int Demo.http_url
              _ _ _ _ _ _ Hn) as (errors & Hh & Hnd & _).
  exists errors. auto.
Defined.


Lemma page_rearranges_fetched_demo :
  exists resp hdr,
    Demo.get_news (Some (u "validchan,1002")) 2 0 (u "newest")
    = Return (resp, hdr)
    /\ exists fetched dropped,
         Permutation (NewsList.items resp ++ dropped) (concat fetched).
Proof.
  run_get_news resp hdr Hn.
  destruct (page_rearranges_fetched Demo.client None Demo.lower Demo.int Demo.http_url
              _ _ _ _ _ _ Hn) as (fetched & errors & dropped & _ & Hp & _).
  exists fetched, dropped. exact Hp.
Defined.

Lemma ties_keep_fetch_order_demo :
  sort_results Demo.lower (u "newest") Demo.merged
  = [ Demo.item 10 "alpha" 500; Demo.item 21 "beta" 500;
      Demo.item 7 "alpha" 200; Demo.item 20 "beta" 200 ]
  /\ published_at 500 (sort_results Demo.lower (u "newest") Demo.merged)
     = [ Demo.item 10 "alpha" 500; Demo.item 21 "beta" 500 ]
  /\ published_at 500 (sort_results Demo.lower (u "newest") Demo.merged)
     = published_at 500 Demo.merged.
Proof.
  split; [reflexivity|]. split; [reflexivity|].
  apply (proj1 (ties_keep_fetch_order Demo.lower (u "newest") Demo.merged)).
  left. reflexivity.
Defined.

Lemma failed_channels_leave_body_demo :
  exists resp hdr,
    Demo.get_news (Some (u "nobody,validchan")) 5 0 (u "newest")
    = Return (resp, hdr)
    /\ Demo.get_news (Some (u "validchan")) 5 0 (u "newest")
       = Return (resp, None).
Proof.
  run_get_news resp hdr Hn.
  apply (failed_channels_leave_body Demo.client None Demo.lower Demo.int Demo.http_url
           (Some (u "nobody,validchan")) (Some (u "validchan"))
           5 0 (u "newest") resp hdr).
  - vm_compute. reflexivity.
  - exact Hn.
Defined.

Lemma next_offset_on_page_demo :
  exists resp hdr,
    Demo.get_news (Some (u "validchan,1002")) 3 0 (u "newest")
    = Return (resp, hdr)
    /\ forall z, NewsList.next_offset resp = Some z ->
         exists item, In item (NewsList.items resp)
                      /\ NewsItem.id item = py_str z.
Proof.
  run_get_news resp hdr Hn. intros z Hz.
  exact (proj1 (next_offset_on_page Demo.client None Demo.lower Demo.int Demo.http_url
                  _ _ _ _ _ _ z demo_int_str Hn Hz)).
Defined.

Lemma media_info_matches_proxy_demo :
  Demo.proxy_media 1001 7 = Raise media_not_found.
Proof.
  apply (proj2 (proj2 (media_info_matches_proxy Demo.client) 1001 7
                  Demo.validchan
                  (Message.mk 7 (Some (u "  Third  ")) 200 None None None None)
                  eq_refl eq_refl)).
  reflexivity.
Defined.

Lemma media_type_never_empty_demo :
  Demo.proxy_media 1002 21 = Return ([Byte.x00; Byte.x00], u "video/mp4")
  /\ u "video/mp4" <> [].
Proof.
  split; [reflexivity|].
  apply (proj2 (media_type_never_empty Demo.client) 1002 21
           [Byte.x00; Byte.x00]).
  reflexivity.
Defined.

Lemma proxy_media_status_demo :
  Demo.proxy_media 4242 1
  = Raise (LibError (ValueError (u "Could not find the input entity"))).
Proof.
  pose proof (proxy_media_status Demo.client 4242 1) as H.
  cbv zeta in H. destruct H as (_ & H & _). apply H. reflexivity.
Defined.

Lemma allow_origins_shape_demo :
  length (allow_origins (Some (u "https://a.example, https://b.example")))
  = S (count_char COMMA (u "https://a.example, https://b.example")).
Proof.
  apply (proj1 (proj2 (proj2 (allow_origins_shape
                                (Some (u "https://a.example, https://b.example")))))
           (u "https://a.example, https://b.example") eq_refl).
  discriminate.
Defined.
